(** * Notes frontend (src/notes_frontend/src/App.js): the note store, the
    search view, the selection policy, the persistence hook and the theme
    toggle, embedded as Rocq functions and checked against the specification.

    Conventions of the embedding.
    - The text of a note and a query are [string]s: sequences of 8-bit code
      units, read as Latin-1.  On that alphabet [toLowerCase], [trim] and
      [includes] are the functions of the language, unit for unit
      ([toLowerCase_wide], [trim_wide], [includes_wide]).  Beyond it
      lower-casing depends on the letters around a unit; the search on texts
      of 16-bit code units is embedded in [Utf16].
    - A text kept in the storage is a list of 16-bit code units, which
      JSON needs for its escapes.
    - A timestamp (milliseconds since the epoch) is a [Z].
    - [null] and [undefined] are [None]; a value that may be absent is an
      [option].
    - [Date.now()] and [Math.random()] are inputs of the operation that
      reads them. *)

From Stdlib Require Import ZArith Ascii String.
From stdpp Require Import base option list strings gmap.

Local Open Scope Z_scope.

(** ** JS strings *)

Module JsString.

(** Code units U+0041..U+005A, U+00C0..U+00D6 and U+00D8..U+00DE: the
    letters below U+0100 that [toLowerCase] changes, each by adding 0x20. *)
Definition is_upper (c : ascii) : bool :=
  let n := N_of_ascii c in
  ((65 <=? n) && (n <=? 90) || (192 <=? n) && (n <=? 222) && negb (n =? 215))%N.

Definition lower_unit (c : ascii) : ascii :=
  if is_upper c then ascii_of_N (N_of_ascii c + 32) else c.

(** [s.toLowerCase()] for a text [s] over Latin-1; for texts of 16-bit
    code units see [Utf16.toLowerCase]. *)
Fixpoint toLowerCase (s : string) : string :=
  match s with
  | EmptyString => EmptyString
  | String c r => String (lower_unit c) (toLowerCase r)
  end.

(** WhiteSpace and LineTerminator code units below U+0100: TAB, LF, VT, FF,
    CR, SP and NBSP. *)
Definition is_white (c : ascii) : bool :=
  let n := N_of_ascii c in
  ((9 <=? n) && (n <=? 13) || (n =? 32) || (n =? 160))%N.

Fixpoint trimStart (s : string) : string :=
  match s with
  | EmptyString => EmptyString
  | String c r => if is_white c then trimStart r else s
  end.

Fixpoint trimEnd (s : string) : string :=
  match s with
  | EmptyString => EmptyString
  | String c r =>
      match trimEnd r with
      | EmptyString => if is_white c then EmptyString else String c EmptyString
      | r' => String c r'
      end
  end.

Definition trim (s : string) : string := trimEnd (trimStart s).

Fixpoint startsWith (s q : string) : bool :=
  match q, s with
  | EmptyString, _ => true
  | String _ _, EmptyString => false
  | String a q', String b s' => bool_decide (a = b) && startsWith s' q'
  end.

(** [s.includes(q)]: [q] occurs in [s] at some position. *)
Fixpoint includes (s q : string) : bool :=
  startsWith s q ||
  match s with
  | EmptyString => false
  | String _ r => includes r q
  end.

(** Truthiness of a string: every string but the empty one. *)
Definition truthy (s : string) : bool :=
  match s with EmptyString => false | String _ _ => true end.

(** [x || null] for [x] a string or [undefined]. *)
Definition or_null (x : option string) : option string :=
  match x with
  | Some s => if truthy s then Some s else None
  | None => None
  end.

(** [x || ''] for [x] a string. *)
Definition or_empty (s : string) : string :=
  if truthy s then s else EmptyString.

End JsString.

Import JsString.

(** ** Number.prototype.toString(radix) on integers *)

Module Radix.

Definition digit (d : N) : ascii :=
  if (d <? 10)%N then ascii_of_N (48 + d) else ascii_of_N (87 + d).

(** The digits of [n] in [base], most significant first, put in front of
    [acc].  The loop runs on [fuel]; [N.size_nat n] rounds are enough
    ([value_of_N]). *)
Fixpoint digits (base : N) (fuel : nat) (n : N) (acc : string) : string :=
  let acc' := String (digit (n mod base)) acc in
  match fuel with
  | O => acc'
  | S f => if (n / base =? 0)%N then acc' else digits base f (n / base)%N acc'
  end.

Definition of_N (base n : N) : string :=
  digits base (N.size_nat n) n EmptyString.

(** [z.toString(base)] for an integer [z]. *)
Definition to_string (base : N) (z : Z) : string :=
  if z <? 0 then String "-"%char (of_N base (Z.abs_N z))
  else of_N base (Z.abs_N z).

(** Reading a digit string back. *)
Definition digit_value (c : ascii) : N :=
  let n := N_of_ascii c in
  if (n <? 58)%N then (n - 48)%N else (n - 87)%N.

Fixpoint value_from (base acc : N) (s : string) : N :=
  match s with
  | EmptyString => acc
  | String c r => value_from base (base * acc + digit_value c)%N r
  end.

End Radix.

(** [uid()]: the base-36 fraction digits of a random draw ([frac], what
    [Math.random().toString(36).slice(2)] leaves; empty when the draw is 0)
    followed by the clock reading in base 36. *)
Definition uid (frac : string) (now : Z) : string :=
  frac +:+ Radix.to_string 36 now.

(** ** Notes *)

Record Note := mkNote {
  id : string;
  title : string;
  content : string;
  createdAt : Z;
  updatedAt : Z
}.

Global Instance Note_eq_dec : EqDecision Note.
Proof. solve_decision. Defined.

(** The argument of [updateNote]: the editor sends [{title}] or [{content}];
    an absent field is [None]. *)
Record Patch := mkPatch {
  patch_title : option string;
  patch_content : option string
}.

(** [{ ...n, ...patch, updatedAt: now }] *)
Definition merge (n : Note) (patch : Patch) (now : Z) : Note :=
  {| id := id n;
     title := default (title n) (patch_title patch);
     content := default (content n) (patch_content patch);
     createdAt := createdAt n;
     updatedAt := now |}.

Definition ids (notes : list Note) : list string := id <$> notes.

(** ** useNotes *)

(** [createNote]: [now] is the reading of line 49, [frac] and [tick] are the
    draw and the reading inside [uid()].  Returns the id and the new
    collection. *)
Definition createNote (now : Z) (frac : string) (tick : Z) (prev : list Note)
  : string * list Note :=
  let n := {| id := uid frac tick; title := "Untitled"; content := "";
              createdAt := now; updatedAt := now |} in
  (id n, n :: prev).

(** [updateNote]: [Date.now()] is read inside the callback, once for each
    matching note; [now i] is the reading taken at position [i]. *)
Definition updateNote (sid : string) (patch : Patch) (now : nat → Z)
    (prev : list Note) : list Note :=
  imap (λ i n, if decide (id n = sid) then merge n patch (now i) else n) prev.

Definition deleteNote (sid : string) (prev : list Note) : list Note :=
  filter (λ n, id n ≠ sid) prev.


(** ** App: derived views and handlers *)

(** The component state the handlers read and write: the collection held by
    [useNotes] and the [selectedId] cell ([null] is [None]). *)
Record App := mkApp {
  notes : list Note;
  selectedId : option string
}.

(** [n.id === selectedId]: never true for [null]. *)
Definition is_selected (selectedId : option string) (n : Note) : Prop :=
  selectedId = Some (id n).

Global Instance is_selected_dec sel n : Decision (is_selected sel n).
Proof. unfold is_selected. apply _. Defined.

(** [notes.find((n) => n.id === selectedId) || null] *)
Definition selected (a : App) : option Note :=
  snd <$> list_find (is_selected (selectedId a)) (notes a).

(** [notes.findIndex((n) => n.id === sid)], [-1] when there is none. *)
Definition findIndex (sid : string) (l : list Note) : Z :=
  match list_find (λ n, id n = sid) l with
  | Some (i, _) => Z.of_nat i
  | None => -1
  end.

(** [remaining[i]?.id || null] *)
Definition id_at (remaining : list Note) (i : Z) : option string :=
  or_null (id <$> (if i <? 0 then None else remaining !! Z.to_nat i)).

Definition handleDelete (a : App) : App :=
  match selected a with
  | None => a
  | Some sel =>
      let nextIndex := Z.max 0 (findIndex (id sel) (notes a) - 1) in
      let remaining := filter (λ n, id n ≠ id sel) (notes a) in
      {| notes := deleteNote (id sel) (notes a);
         selectedId := id_at remaining nextIndex |}
  end.

Definition handleCreate (now : Z) (frac : string) (tick : Z) (a : App) : App :=
  let '(new_id, l) := createNote now frac tick (notes a) in
  {| notes := l; selectedId := Some new_id |}.

Definition handleUpdate (patch : Patch) (now : nat → Z) (a : App) : App :=
  match selected a with
  | None => a
  | Some sel => {| notes := updateNote (id sel) patch now (notes a);
                   selectedId := selectedId a |}
  end.

(** The effect of lines 220-225: with notes present and a falsy
    [selectedId], the first note becomes selected. *)
Definition autoSelect (a : App) : App :=
  match notes a, or_null (selectedId a) with
  | n :: _, None => {| notes := notes a; selectedId := Some (id n) |}
  | _, _ => a
  end.

(** The callback of [notes.filter] in [filtered]. *)
Definition matches (q : string) (n : Note) : bool :=
  includes (toLowerCase (or_empty (title n))) q
  || includes (toLowerCase (or_empty (content n))) q.

Definition filtered (l : list Note) (query : string) : list Note :=
  let q := toLowerCase (trim query) in
  if truthy q then filter (λ n, matches q n) l else l.

(** ** The store driven by a sequence of operations *)

Inductive action :=
| Create (now : Z) (frac : string) (tick : Z)
| Update (sid : string) (patch : Patch) (now : nat → Z)
| Delete (sid : string).

Definition apply_action (l : list Note) (act : action) : list Note :=
  match act with
  | Create now frac tick => snd (createNote now frac tick l)
  | Update sid patch now => updateNote sid patch now l
  | Delete sid => deleteNote sid l
  end.

Definition run (acts : list action) (l : list Note) : list Note :=
  foldl apply_action l acts.

(** Every [Create] of the sequence draws an id that no note of the collection
    carries at that moment. *)
Fixpoint fresh_creates (acts : list action) (l : list Note) : bool :=
  match acts with
  | [] => true
  | act :: rest =>
      match act with
      | Create _ frac tick => bool_decide (uid frac tick ∉ ids l)
      | _ => true
      end && fresh_creates rest (apply_action l act)
  end.

(** ** The words of the specification on the search *)

(** [d] is the lower-case form of the upper-case letter [c]: the unit
    0x20 above it. *)
Definition case_pair (c d : ascii) : bool :=
  is_upper c && bool_decide (N_of_ascii d = N_of_ascii c + 32)%N.

(** Two units are the same when case is ignored: they are equal, or one is
    the lower-case form of the other. *)
Definition same_unit_ignoring_case (c d : ascii) : bool :=
  bool_decide (c = d) || case_pair c d || case_pair d c.

(** Two texts are the same when case is ignored: unit by unit. *)
Fixpoint same_ignoring_case (a b : string) : bool :=
  match a, b with
  | EmptyString, EmptyString => true
  | String c a', String d b' =>
      same_unit_ignoring_case c d && same_ignoring_case a' b'
  | _, _ => false
  end.

(** [q] occurs in [s] when case is ignored: some stretch of [s] is the same
    text as [q], case ignored. *)
Definition contains_ignoring_case (s q : string) : Prop :=
  ∃ before stretch after,
    s = before +:+ stretch +:+ after ∧ same_ignoring_case stretch q = true.

(** The 256 units of the alphabet. *)
Definition all_units : list ascii := (λ k, ascii_of_nat k) <$> seq 0 256.

(** A note is a hit for [q] when its title or its content holds [q], case
    ignored. *)
Definition hit (q : string) (n : Note) : Prop :=
  contains_ignoring_case (title n) q ∨ contains_ignoring_case (content n) q.

(** ** JSON values and texts

    The persistence hook stores and reads JSON text.  A text of the storage
    is a list of 16-bit code units ([N]); [units] embeds a Latin-1 string.
    A number is kept as the decimal its text denotes, [mantissa * 10 ^ exp10]:
    the rounding to a double is not modelled, nor the values a double has
    beyond the decimals ([Infinity], which [JSON.stringify] writes as
    [null]), nor the shortest form [JSON.stringify] picks for a fraction.
    On the integers a double holds exactly ([safe_integer]), written
    without exponent, the decimal is the number and its text is the text
    of the language.  An object is the list of
    its members in the order of the text; a repeated name stays in the list
    as often as it is written, and [field] reads its last value, as the
    property does once the text is parsed. *)

Module Json.

Definition units (s : string) : list N := N_of_ascii <$> list_ascii_of_string s.

Local Unset Elimination Schemes.

Inductive json :=
| JNull
| JBool (b : bool)
| JNum (mantissa : Z) (exp10 : Z)
| JStr (s : list N)
| JArr (items : list json)
| JObj (members : list (list N * json)).

Local Set Elimination Schemes.

(** *** JSON.parse: a pushdown automaton over the code units *)

(** A container being read: an array with the items read so far (last
    first), or an object with its members so far and the name waiting for
    its value. *)
Inductive frame :=
| InArr (items : list json)
| InObj (members : list (list N * json)) (name : option (list N)).

Inductive num_state :=
| NMinus | NZero | NInt | NDot | NFrac | NExpMark | NExpSign | NExp.

(** The number read so far: sign, digits of the integer and fraction parts
    as one natural, count of fraction digits, sign and digits of the
    exponent. *)
Record num := mkNum {
  num_neg : bool;
  num_digits : N;
  num_scale : Z;
  num_eneg : bool;
  num_exp : N
}.

Inductive mode :=
| Value (may_close : bool)
| After
| Key (may_close : bool)
| Colon
| Str (is_key : bool) (rev_units : list N)
| Esc (is_key : bool) (rev_units : list N)
| Hex (is_key : bool) (rev_units : list N) (todo : nat) (acc : N)
| Lit (rest : list N) (v : json)
| Num (st : num_state) (n : num)
| Done (v : json).

Definition state : Type := mode * list frame.

Definition is_ws (c : N) : bool :=
  bool_decide (c = 32 ∨ c = 9 ∨ c = 10 ∨ c = 13)%N.

Definition is_digit (c : N) : bool := ((48 <=? c) && (c <=? 57))%N.

Definition hex_value (c : N) : option N :=
  if ((48 <=? c) && (c <=? 57))%N then Some (c - 48)%N
  else if ((97 <=? c) && (c <=? 102))%N then Some (c - 87)%N
  else if ((65 <=? c) && (c <=? 70))%N then Some (c - 55)%N
  else None.

Definition num_value (n : num) : json :=
  let m := Z.of_N (num_digits n) in
  let e := Z.of_N (num_exp n) in
  JNum (if num_neg n then - m else m)
       ((if num_eneg n then - e else e) - num_scale n).

(** A value is complete: it is the result at top level, a new item of the
    array being read, or the value of the waiting name. *)
Definition complete (v : json) (stack : list frame) : option state :=
  match stack with
  | [] => Some (Done v, [])
  | InArr items :: rest => Some (After, InArr (v :: items) :: rest)
  | InObj members (Some k) :: rest =>
      Some (After, InObj ((k, v) :: members) None :: rest)
  | InObj _ None :: _ => None
  end.

(** After a complete value: separators and closing brackets. *)
Definition step_after (st : state) (c : N) : option state :=
  match st with
  | (Done v, stack) => if is_ws c then Some (Done v, stack) else None
  | (After, stack) =>
      if is_ws c then Some (After, stack)
      else match c, stack with
           | 44%N, InArr _ :: _ => Some (Value false, stack)
           | 44%N, InObj _ None :: _ => Some (Key false, stack)
           | 93%N, InArr items :: rest => complete (JArr (reverse items)) rest
           | 125%N, InObj members None :: rest =>
               complete (JObj (reverse members)) rest
           | _, _ => None
           end
  | _ => None
  end.

Definition step_value (may_close : bool) (stack : list frame) (c : N)
  : option state :=
  if is_ws c then Some (Value may_close, stack)
  else match c with
       | 34%N => Some (Str false [], stack)
       | 91%N => Some (Value true, InArr [] :: stack)
       | 123%N => Some (Key true, InObj [] None :: stack)
       | 93%N =>
           match may_close, stack with
           | true, InArr [] :: rest => complete (JArr []) rest
           | _, _ => None
           end
       | 45%N => Some (Num NMinus (mkNum true 0 0 false 0), stack)
       | 48%N => Some (Num NZero (mkNum false 0 0 false 0), stack)
       | 116%N => Some (Lit (units "rue") (JBool true), stack)
       | 102%N => Some (Lit (units "alse") (JBool false), stack)
       | 110%N => Some (Lit (units "ull") JNull, stack)
       | _ => if is_digit c
              then Some (Num NInt (mkNum false (c - 48) 0 false 0), stack)
              else None
       end.

Definition push_unit (is_key : bool) (rev_units : list N) (c : N)
    (stack : list frame) : option state :=
  Some (Str is_key (c :: rev_units), stack).

Definition step_string (is_key : bool) (rev_units : list N)
    (stack : list frame) (c : N) : option state :=
  if (c =? 34)%N then
    if is_key then
      match stack with
      | InObj members None :: rest =>
          Some (Colon, InObj members (Some (reverse rev_units)) :: rest)
      | _ => None
      end
    else complete (JStr (reverse rev_units)) stack
  else if (c =? 92)%N then Some (Esc is_key rev_units, stack)
  else if (c <? 32)%N then None
  else push_unit is_key rev_units c stack.

Definition step_escape (is_key : bool) (rev_units : list N)
    (stack : list frame) (c : N) : option state :=
  match c with
  | 34%N | 92%N | 47%N => push_unit is_key rev_units c stack
  | 98%N => push_unit is_key rev_units 8 stack
  | 102%N => push_unit is_key rev_units 12 stack
  | 110%N => push_unit is_key rev_units 10 stack
  | 114%N => push_unit is_key rev_units 13 stack
  | 116%N => push_unit is_key rev_units 9 stack
  | 117%N => Some (Hex is_key rev_units 3 0%N, stack)
  | _ => None
  end.

Definition step_hex (is_key : bool) (rev_units : list N) (todo : nat)
    (acc : N) (stack : list frame) (c : N) : option state :=
  match hex_value c with
  | None => None
  | Some d =>
      let acc' := (16 * acc + d)%N in
      match todo with
      | O => push_unit is_key rev_units acc' stack
      | S k => Some (Hex is_key rev_units k acc', stack)
      end
  end.

Definition add_digit (n : num) (c : N) : num :=
  mkNum (num_neg n) (10 * num_digits n + (c - 48)) (num_scale n)
        (num_eneg n) (num_exp n).

Definition add_frac_digit (n : num) (c : N) : num :=
  mkNum (num_neg n) (10 * num_digits n + (c - 48)) (num_scale n + 1)
        (num_eneg n) (num_exp n).

Definition add_exp_digit (n : num) (c : N) : num :=
  mkNum (num_neg n) (num_digits n) (num_scale n)
        (num_eneg n) (10 * num_exp n + (c - 48)).

Definition set_exp_sign (n : num) (neg : bool) : num :=
  mkNum (num_neg n) (num_digits n) (num_scale n) neg (num_exp n).

(** The states in which the text read so far is a whole number literal. *)
Definition num_final (st : num_state) : bool :=
  match st with
  | NZero | NInt | NFrac | NExp => true
  | _ => false
  end.

(** A unit that cannot go on with the number ends it, and is then read as
    what follows a value. *)
Definition end_number (st : num_state) (n : num) (stack : list frame) (c : N)
  : option state :=
  if num_final st
  then st' ← complete (num_value n) stack; step_after st' c
  else None.

Definition is_exp_mark (c : N) : bool := bool_decide (c = 101 ∨ c = 69)%N.

Definition step_number (st : num_state) (n : num) (stack : list frame) (c : N)
  : option state :=
  match st with
  | NMinus =>
      if (c =? 48)%N then Some (Num NZero n, stack)
      else if is_digit c then Some (Num NInt (add_digit n c), stack)
      else None
  | NZero =>
      if (c =? 46)%N then Some (Num NDot n, stack)
      else if is_exp_mark c then Some (Num NExpMark n, stack)
      else if is_digit c then None
      else end_number st n stack c
  | NInt =>
      if is_digit c then Some (Num NInt (add_digit n c), stack)
      else if (c =? 46)%N then Some (Num NDot n, stack)
      else if is_exp_mark c then Some (Num NExpMark n, stack)
      else end_number st n stack c
  | NDot =>
      if is_digit c then Some (Num NFrac (add_frac_digit n c), stack) else None
  | NFrac =>
      if is_digit c then Some (Num NFrac (add_frac_digit n c), stack)
      else if is_exp_mark c then Some (Num NExpMark n, stack)
      else end_number st n stack c
  | NExpMark =>
      if (c =? 43)%N then Some (Num NExpSign n, stack)
      else if (c =? 45)%N then Some (Num NExpSign (set_exp_sign n true), stack)
      else if is_digit c then Some (Num NExp (add_exp_digit n c), stack)
      else None
  | NExpSign =>
      if is_digit c then Some (Num NExp (add_exp_digit n c), stack) else None
  | NExp =>
      if is_digit c then Some (Num NExp (add_exp_digit n c), stack)
      else end_number st n stack c
  end.

Definition step (st : state) (c : N) : option state :=
  match st with
  | (Value may_close, stack) => step_value may_close stack c
  | (After, _) | (Done _, _) => step_after st c
  | (Key may_close, stack) =>
      if is_ws c then Some st
      else match c, may_close, stack with
           | 34%N, _, _ => Some (Str true [], stack)
           | 125%N, true, InObj [] None :: rest => complete (JObj []) rest
           | _, _, _ => None
           end
  | (Colon, stack) =>
      if is_ws c then Some st
      else if (c =? 58)%N then Some (Value false, stack) else None
  | (Str is_key rev_units, stack) => step_string is_key rev_units stack c
  | (Esc is_key rev_units, stack) => step_escape is_key rev_units stack c
  | (Hex is_key rev_units todo acc, stack) =>
      step_hex is_key rev_units todo acc stack c
  | (Lit rest v, stack) =>
      match rest with
      | x :: [] => if (c =? x)%N then complete v stack else None
      | x :: more => if (c =? x)%N then Some (Lit more v, stack) else None
      | [] => None
      end
  | (Num ns n, stack) => step_number ns n stack c
  end.

(** The end of the text: a top-level value must be complete. *)
Definition finish (st : state) : option json :=
  match st with
  | (Done v, []) => Some v
  | (Num ns n, []) => if num_final ns then Some (num_value n) else None
  | _ => None
  end.

Fixpoint consume (st : state) (t : list N) : option json :=
  match t with
  | [] => finish st
  | c :: rest => st' ← step st c; consume st' rest
  end.

(** [JSON.parse(t)]: the value, or [None] where it throws a SyntaxError. *)
Definition JSON_parse (t : list N) : option json := consume (Value false, []) t.

(** *** JSON.stringify *)

Definition is_high_surrogate (c : N) : bool := ((55296 <=? c) && (c <=? 56319))%N.
Definition is_low_surrogate (c : N) : bool := ((56320 <=? c) && (c <=? 57343))%N.

(** [\uXXXX] with four lower-case hexadecimal digits. *)
Definition unicode_escape (c : N) : list N :=
  let h := Radix.of_N 16 c in
  [92; 117]%N ++ replicate (4 - String.length h) 48%N ++ units h.

Definition quote_unit (c : N) : list N :=
  match c with
  | 34%N => [92; 34]%N
  | 92%N => [92; 92]%N
  | 8%N => [92; 98]%N
  | 12%N => [92; 102]%N
  | 10%N => [92; 110]%N
  | 13%N => [92; 114]%N
  | 9%N => [92; 116]%N
  | _ => if (c <? 32)%N then unicode_escape c else [c]
  end.

(** The units of a string between its quotes: a surrogate that is not half
    of a pair is written as an escape. *)
Fixpoint quote_units (s : list N) : list N :=
  match s with
  | [] => []
  | c :: r =>
      if is_high_surrogate c then
        match r with
        | d :: r' =>
            if is_low_surrogate d then c :: d :: quote_units r'
            else unicode_escape c ++ quote_units r
        | [] => unicode_escape c
        end
      else if is_low_surrogate c then unicode_escape c ++ quote_units r
      else quote_unit c ++ quote_units r
  end.

Definition quote (s : list N) : list N := [34%N] ++ quote_units s ++ [34%N].

(** A number is written as its mantissa, followed by [e] and the exponent
    when that is not zero: a spelling of the same decimal. *)
Definition number_text (m e : Z) : list N :=
  units (Radix.to_string 10 m) ++
  (if e =? 0 then [] else [101%N] ++ units (Radix.to_string 10 e)).

Fixpoint join (sep : list N) (parts : list (list N)) : list N :=
  match parts with
  | [] => []
  | [p] => p
  | p :: rest => p ++ sep ++ join sep rest
  end.

Fixpoint JSON_stringify (v : json) : list N :=
  match v with
  | JNull => units "null"
  | JBool true => units "true"
  | JBool false => units "false"
  | JNum m e => number_text m e
  | JStr s => quote s
  | JArr items => [91%N] ++ join [44%N] (map JSON_stringify items) ++ [93%N]
  | JObj members =>
      [123%N] ++
      join [44%N]
        (map (λ kv, quote (fst kv) ++ [58%N] ++ JSON_stringify (snd kv)) members)
      ++ [125%N]
  end.

(** [x === s] for a string literal [s]. *)
Definition is_string (s : string) (x : json) : bool :=
  match x with
  | JStr u => bool_decide (u = units s)
  | _ => false
  end.

End Json.

Import Json.

(** The collection as the value [JSON.stringify] sees: the fields in the
    order the object literal of [createNote] lists them. *)
Definition json_of_note (n : Note) : json :=
  JObj [ (units "id", JStr (units (id n)));
         (units "title", JStr (units (title n)));
         (units "content", JStr (units (content n)));
         (units "createdAt", JNum (createdAt n) 0);
         (units "updatedAt", JNum (updatedAt n) 0) ].

Definition json_of_notes (l : list Note) : json := JArr (json_of_note <$> l).

(** ** localStorage and exceptions *)

Inductive exn := SecurityError | QuotaExceededError | SyntaxError.

Inductive completion (A : Type) :=
| Normal (a : A)
| Throw (e : exn).
Global Arguments Normal {A} a.
Global Arguments Throw {A} e.

(** The storage area of the origin: [available] is false where any access
    throws (storage disabled); [quota] bounds the units held. *)
Record Storage := mkStorage {
  available : bool;
  quota : nat;
  items : gmap (list N) (list N)
}.

Definition footprint (m : gmap (list N) (list N)) : nat :=
  map_fold (λ k v acc, (length k + length v + acc)%nat) 0%nat m.

(** A computation that reads and writes the storage and may throw. *)
Definition Eff (A : Type) : Type := Storage → completion A * Storage.

Global Instance Eff_ret : MRet Eff := λ A a st, (Normal a, st).

Global Instance Eff_bind : MBind Eff := λ A B f m st,
  match m st with
  | (Normal a, st') => f a st'
  | (Throw e, st') => (Throw e, st')
  end.

Definition throw {A} (e : exn) : Eff A := λ st, (Throw e, st).

(** [try { body } catch { handler }] *)
Definition try_catch {A} (body : Eff A) (handler : Eff A) : Eff A := λ st,
  match body st with
  | (Normal a, st') => (Normal a, st')
  | (Throw _, st') => handler st'
  end.

(** [localStorage.getItem(key)]: the text, or [null]. *)
Definition getItem (key : list N) : Eff (option (list N)) := λ st,
  if available st then (Normal (items st !! key), st)
  else (Throw SecurityError, st).

(** [localStorage.setItem(key, text)] *)
Definition setItem (key text : list N) : Eff unit := λ st,
  if available st then
    let m := <[key := text]> (items st) in
    if decide (footprint m ≤ quota st)%nat
    then (Normal (), mkStorage (available st) (quota st) m)
    else (Throw QuotaExceededError, st)
  else (Throw SecurityError, st).

(** [JSON.parse(text)] as a computation. *)
Definition parse (text : list N) : Eff json :=
  match JSON_parse text with
  | Some v => mret v
  | None => throw SyntaxError
  end.

(** ** useLocalStorage *)

(** The initialiser of the state cell (lines 27-34): [raw] is falsy when it
    is [null] or the empty text. *)
Definition load (key : list N) (initialValue : json) : Eff json :=
  try_catch
    (raw ← getItem key;
     match raw with
     | Some (c :: text) => parse (c :: text)
     | Some [] | None => mret initialValue
     end)
    (mret initialValue).

(** The effect that follows a change of [state] (lines 35-41). *)
Definition save (key : list N) (state : json) : Eff unit :=
  try_catch (setItem key (JSON_stringify state)) (mret ()).

Definition STORAGE_KEY : list N := units "notes-app:notes".
Definition STORAGE_THEME : list N := units "notes-app:theme".

(** The state cells of the two hooks with the storage they write to. *)
Record Session := mkSession {
  notes_cell : json;
  theme_cell : json;
  backend : Storage
}.

(** The effect of a hook run in a session: it reads the cell it was given
    and reaches the storage only. *)
Definition persist (key : list N) (state : json) (s : Session)
  : completion unit * Session :=
  let '(r, st) := save key state (backend s) in
  (r, mkSession (notes_cell s) (theme_cell s) st).

Definition persist_notes (s : Session) : completion unit * Session :=
  persist STORAGE_KEY (notes_cell s) s.

Definition persist_theme (s : Session) : completion unit * Session :=
  persist STORAGE_THEME (theme_cell s) s.

(** ** useTheme *)

Definition light : json := JStr (units "light").
Definition dark : json := JStr (units "dark").

(** [(t) => (t === 'light' ? 'dark' : 'light')] *)
Definition toggleTheme (t : json) : json :=
  if is_string "light" t then dark else light.

(** ** The words of the specification on texts and stored values *)

(** White space at the ends of a text, to say what [trim] leaves. *)
Fixpoint all_white (s : string) : bool :=
  match s with
  | EmptyString => true
  | String c r => is_white c && all_white r
  end.

Definition starts_white (s : string) : bool :=
  match s with
  | EmptyString => false
  | String c _ => is_white c
  end.

Fixpoint ends_white (s : string) : bool :=
  match s with
  | EmptyString => false
  | String c EmptyString => is_white c
  | String _ r => ends_white r
  end.

(** The shape the specification gives the stored collection: a sequence of
    objects, each with at least the fields id, title and content holding
    strings and createdAt and updatedAt holding numbers. *)
Definition field (name : string) (members : list (list N * json)) : option json :=
  (λ found, snd (snd found)) <$>
  list_find (λ kv, fst kv = units name) (reverse members).

Definition string_field (name : string) (members : list (list N * json)) : bool :=
  match field name members with Some (JStr _) => true | _ => false end.

Definition number_field (name : string) (members : list (list N * json)) : bool :=
  match field name members with Some (JNum _ _) => true | _ => false end.

Definition note_shaped (v : json) : bool :=
  match v with
  | JObj members =>
      string_field "id" members && string_field "title" members &&
      string_field "content" members && number_field "createdAt" members &&
      number_field "updatedAt" members
  | _ => false
  end.

Definition notes_shaped (v : json) : bool :=
  match v with
  | JArr items => forallb note_shaped items
  | _ => false
  end.

(** ** Components: what they derive from their props *)

(** NoteList, the title of an item: [n.title || 'Untitled']. *)
Definition item_title (n : Note) : string :=
  if truthy (title n) then title n else "Untitled".

(** NoteList, the class of an item: active when [activeId === n.id]. *)
Definition item_active (activeId : option string) (n : Note) : bool :=
  bool_decide (activeId = Some (id n)).

(** Toolbar: [canDelete={!!selected}]; the button is disabled without it. *)
Definition canDelete (a : App) : bool :=
  match selected a with Some _ => true | None => false end.

(** ** The component driven by the user *)

(** What the user can do: press New note, press Delete, type in the editor
    (the patch the editor sends), press the [k]-th item of the list shown
    for some query. *)
Inductive event :=
| Click_new (now : Z) (frac : string) (tick : Z)
| Click_delete
| Edit (patch : Patch) (now : nat → Z)
| Click_item (query : string) (k : nat).

(** [onSelect(n.id)] on the [k]-th item of [filtered]. *)
Definition select_item (query : string) (k : nat) (a : App) : App :=
  match filtered (notes a) query !! k with
  | Some n => {| notes := notes a; selectedId := Some (id n) |}
  | None => a
  end.

Definition handle (a : App) (e : event) : App :=
  match e with
  | Click_new now frac tick => handleCreate now frac tick a
  | Click_delete => handleDelete a
  | Edit patch now => handleUpdate patch now a
  | Click_item query k => select_item query k a
  end.

(** A handler, then the effect of lines 220-225 on the new state. *)
Definition react (a : App) (e : event) : App := autoSelect (handle a e).

(** The component from its first render on the collection [l], through the
    events [evs]. *)
Definition session (evs : list event) (l : list Note) : App :=
  foldl react (autoSelect (mkApp l None)) evs.

(** Every clock reading an [Update] of the sequence takes for a note is at
    or after the creation time of that note. *)
Definition timely_update (sid : string) (now : nat → Z) (l : list Note) : bool :=
  bool_decide (Forall (λ p, id (snd p) = sid → createdAt (snd p) ≤ now (fst p))
                      (imap pair l)).

Fixpoint timely (acts : list action) (l : list Note) : bool :=
  match acts with
  | [] => true
  | act :: rest =>
      match act with
      | Update sid _ now => timely_update sid now l
      | _ => true
      end && timely rest (apply_action l act)
  end.

(** Two edits in a row as one patch: a field of the second edit wins over
    the same field of the first. *)
Definition patch_then (first second : Patch) : Patch :=
  {| patch_title :=
       match patch_title second with
       | Some x => Some x
       | None => patch_title first
       end;
     patch_content :=
       match patch_content second with
       | Some x => Some x
       | None => patch_content first
       end |}.

(** The selection names a note of the collection, or is none. *)
Definition valid_selection (a : App) : Prop :=
  ∀ s, selectedId a = Some s → s ∈ ids (notes a).

(** Reading a [\uXXXX] escape back: the unit its four digits name. *)
Definition decode_escape (t : list N) : option N :=
  match t with
  | [92; 117; h1; h2; h3; h4]%N =>
      d1 ← hex_value h1; d2 ← hex_value h2;
      d3 ← hex_value h3; d4 ← hex_value h4;
      Some (16 * (16 * (16 * (16 * 0 + d1) + d2) + d3) + d4)%N
  | _ => None
  end.

(** What follows a value in a JSON text: the end, or a unit that cannot go
    on with a number. *)
Definition ends_value (rest : list N) : bool :=
  match rest with
  | [] => true
  | c :: _ => negb (is_digit c || (c =? 46)%N || is_exp_mark c)
  end.

(** The value of a run of decimal digits read after [acc]. *)
Definition read_decimal (acc : N) (ds : list N) : N :=
  foldl (λ a c, 10 * a + (c - 48))%N acc ds.

Definition with_digits (n : num) (d : N) : num :=
  mkNum (num_neg n) d (num_scale n) (num_eneg n) (num_exp n).

Definition with_exp (n : num) (e : N) : num :=
  mkNum (num_neg n) (num_digits n) (num_scale n) (num_eneg n) e.

(** Read at the start of a value and followed by what may follow a value,
    the text of [v] gives [v]. *)
Definition reads_back (v : json) : Prop :=
  ∀ b stack rest, ends_value rest = true →
    consume (Value b, stack) (JSON_stringify v ++ rest) =
    complete v stack ≫= λ st, consume st rest.

(** A member as [JSON_stringify] writes it. *)
Definition member_text (kv : list N * json) : list N :=
  quote (fst kv) ++ [58%N] ++ JSON_stringify (snd kv).

(** ** The search view on texts of 16-bit code units

    [filtered] above reads the texts of notes and queries as Latin-1.  The
    functions of the language work on sequences of 16-bit code units, and
    there [String.prototype.toLowerCase] is not unit by unit: a capital
    sigma (U+03A3) becomes the final sigma (U+03C2) when a cased letter
    comes before it and none after it, and the small sigma (U+03C3)
    elsewhere (Final_Sigma of the Unicode case conversion).

    This module embeds the search on code units with the part of the
    character tables it carries: Basic Latin, the Latin-1 Supplement and the
    three sigmas.  A text with a unit outside them is beyond the tables and
    lower-casing it gives [None].  [trim] and [includes] need no table
    beyond the white space of the language and are total. *)

Module Utf16.

Record Note := mkNote {
  id : list N;
  title : list N;
  content : list N;
  createdAt : Z;
  updatedAt : Z
}.

(** The units the case tables below cover: U+0000..U+00FF, U+03A3, U+03C2
    and U+03C3. *)
Definition in_tables (c : N) : bool :=
  ((c <? 256) || (c =? 931) || (c =? 962) || (c =? 963))%N.

(** The property Cased on the covered units: the letters of Basic Latin,
    U+00AA, U+00B5, U+00BA, U+00C0..U+00FF but U+00D7 and U+00F7, and the
    sigmas. *)
Definition cased (c : N) : bool :=
  ((65 <=? c) && (c <=? 90) || (97 <=? c) && (c <=? 122) ||
   (c =? 170) || (c =? 181) || (c =? 186) ||
   (192 <=? c) && (c <=? 255) && negb (c =? 215) && negb (c =? 247) ||
   (c =? 931) || (c =? 962) || (c =? 963))%N.

(** The property Case_Ignorable on the covered units: U+0027, U+002E,
    U+003A, U+005E, U+0060, U+00A8, U+00AD, U+00AF, U+00B4, U+00B7 and
    U+00B8. *)
Definition case_ignorable (c : N) : bool :=
  bool_decide (c ∈ [39; 46; 58; 94; 96; 168; 173; 175; 180; 183; 184]%N).

(** Going away from a position through [t], a cased letter comes with
    nothing but case-ignorable units before it. *)
Fixpoint meets_cased (t : list N) : bool :=
  match t with
  | [] => false
  | c :: r => cased c || case_ignorable c && meets_cased r
  end.

(** Final_Sigma at a position: [before] holds the units before it, the
    nearest first, [after] the units after it. *)
Definition final_sigma (before after : list N) : bool :=
  meets_cased before && negb (meets_cased after).

(** The units with a lower-case form 0x20 above them: U+0041..U+005A,
    U+00C0..U+00D6 and U+00D8..U+00DE. *)
Definition is_upper (c : N) : bool :=
  ((65 <=? c) && (c <=? 90) || (192 <=? c) && (c <=? 222) && negb (c =? 215))%N.

Definition lower_unit (before : list N) (c : N) (after : list N) : N :=
  if (c =? 931)%N then (if final_sigma before after then 962 else 963)%N
  else if is_upper c then (c + 32)%N
  else c.

Fixpoint lower_from (before t : list N) : list N :=
  match t with
  | [] => []
  | c :: after => lower_unit before c after :: lower_from (c :: before) after
  end.

Definition toLowerCase (t : list N) : option (list N) :=
  if forallb in_tables t then Some (lower_from [] t) else None.

(** WhiteSpace and LineTerminator: TAB, LF, VT, FF, CR, SP, NBSP, U+1680,
    U+2000..U+200A, U+2028, U+2029, U+202F, U+205F, U+3000 and U+FEFF. *)
Definition is_white (c : N) : bool :=
  ((9 <=? c) && (c <=? 13) || (c =? 32) || (c =? 160) || (c =? 5760) ||
   (8192 <=? c) && (c <=? 8202) || (c =? 8232) || (c =? 8233) ||
   (c =? 8239) || (c =? 8287) || (c =? 12288) || (c =? 65279))%N.

Fixpoint trimStart (t : list N) : list N :=
  match t with
  | [] => []
  | c :: r => if is_white c then trimStart r else t
  end.

Fixpoint trimEnd (t : list N) : list N :=
  match t with
  | [] => []
  | c :: r =>
      match trimEnd r with
      | [] => if is_white c then [] else [c]
      | r' => c :: r'
      end
  end.

Definition trim (t : list N) : list N := trimEnd (trimStart t).

Fixpoint startsWith (t q : list N) : bool :=
  match q, t with
  | [], _ => true
  | _ :: _, [] => false
  | a :: q', b :: t' => bool_decide (a = b) && startsWith t' q'
  end.

Fixpoint includes (t q : list N) : bool :=
  startsWith t q ||
  match t with
  | [] => false
  | _ :: r => includes r q
  end.

(** [x || ''] for [x] a string. *)
Definition or_empty (t : list N) : list N :=
  match t with [] => [] | _ :: _ => t end.

(** The callback of [notes.filter] in [filtered]: the content is lower-cased
    only when the title does not hold [q]. *)
Definition matches (q : list N) (n : Note) : option bool :=
  t ← toLowerCase (or_empty (title n));
  if includes t q then Some true
  else c ← toLowerCase (or_empty (content n)); Some (includes c q).

(** [notes.filter(f)] for a callback that may be beyond the tables. *)
Fixpoint filter_by (f : Note → option bool) (l : list Note) : option (list Note) :=
  match l with
  | [] => Some []
  | n :: r =>
      keep ← f n; r' ← filter_by f r;
      Some (if keep : bool then n :: r' else r')
  end.

Definition filtered (l : list Note) (query : list N) : option (list Note) :=
  q ← toLowerCase (trim query);
  match q with
  | [] => Some l
  | _ :: _ => filter_by (matches q) l
  end.

End Utf16.

(** A note with Latin-1 texts as a note with texts of code units. *)
Definition wide (n : Note) : Utf16.Note :=
  Utf16.mkNote (units (id n)) (units (title n)) (units (content n))
               (createdAt n) (updatedAt n).

(** ** The words of the specification on the search, from the character tables

    The same notions as above, written from the tables of the alphabet
    and not from the tests [toLowerCase] and [trim] make. *)

(** The white space below U+0100: TAB, LF, VT, FF, CR, SP and NBSP. *)
Definition white_codes : list N := [9; 10; 11; 12; 13; 32; 160]%N.

Definition blank (c : ascii) : bool := bool_decide (N_of_ascii c ∈ white_codes).

Fixpoint all_blank (s : string) : bool :=
  match s with
  | EmptyString => true
  | String c r => blank c && all_blank r
  end.

Definition starts_blank (s : string) : bool :=
  match s with
  | EmptyString => false
  | String c _ => blank c
  end.

Fixpoint ends_blank (s : string) : bool :=
  match s with
  | EmptyString => false
  | String c EmptyString => blank c
  | String _ r => ends_blank r
  end.

(** [t] is [query] without the white space at its ends. *)
Definition stripped (query t : string) : Prop :=
  ∃ a b, query = a +:+ t +:+ b ∧ all_blank a = true ∧ all_blank b = true ∧
         starts_blank t = false ∧ ends_blank t = false.

(** The letters below U+0100 that come in two cases, capital and small: A to
    Z, U+00C0..U+00D6 with U+00E0..U+00F6 and U+00D8..U+00DE with
    U+00F8..U+00FE. *)
Definition letter_pairs : list (N * N) :=
  zip (units "ABCDEFGHIJKLMNOPQRSTUVWXYZ") (units "abcdefghijklmnopqrstuvwxyz") ++
  zip (N.of_nat <$> seq 192 23 ++ seq 216 7)
      (N.of_nat <$> seq 224 23 ++ seq 248 7).

Definition is_pair (c d : ascii) : bool :=
  bool_decide ((N_of_ascii c, N_of_ascii d) ∈ letter_pairs).

Definition same_letter (c d : ascii) : bool :=
  bool_decide (c = d) || is_pair c d || is_pair d c.

Fixpoint same_letters (a b : string) : bool :=
  match a, b with
  | EmptyString, EmptyString => true
  | String c a', String d b' => same_letter c d && same_letters a' b'
  | _, _ => false
  end.

(** [q] occurs in [s], case ignored. *)
Definition occurs_ignoring_case (s q : string) : Prop :=
  ∃ before stretch after,
    s = before +:+ stretch +:+ after ∧ same_letters stretch q = true.


(** [Number.isSafeInteger]: the integers a double holds exactly, each
    written by [JSON.stringify] as its decimal digits. *)
Definition safe_integer (z : Z) : bool :=
  (- 9007199254740991 <=? z) && (z <=? 9007199254740991).

Definition safe_times (n : Note) : bool :=
  safe_integer (createdAt n) && safe_integer (updatedAt n).

(** The values the two hooks of the app put in their cells: a collection of
    notes with such timestamps, or a text. *)
Definition app_value (v : json) : Prop :=
  (∃ l, forallb safe_times l = true ∧ v = json_of_notes l) ∨
  (∃ s, v = JStr (units s)).

(** * Properties *)

(** A decidable closed proposition, settled by evaluation. *)
Ltac by_compute := apply (bool_decide_unpack _); vm_compute; exact I.

(** ** Strings *)

Section strings.
Implicit Types s q a b : string.

Lemma app_cons c s b : String c s +:+ b = String c (s +:+ b).
Proof. reflexivity. Qed.

Lemma startsWith_spec s q : startsWith s q = true ↔ ∃ rest, s = q +:+ rest.
Proof.
  revert s. induction q as [|a q IH]; intros [|b s]; cbn [startsWith].
  - split; [by exists EmptyString | done].
  - split; [by exists (String b s) | done].
  - split; [done | intros [rest Hrest]; discriminate].
  - rewrite andb_true_iff, bool_decide_eq_true, IH. split.
    + intros [-> [rest ->]]. by exists rest.
    + intros [rest Hrest]. rewrite app_cons in Hrest.
      injection Hrest as <- ->. eauto.
Qed.

Lemma includes_spec s q :
  includes s q = true ↔ ∃ before rest, s = before +:+ q +:+ rest.
Proof.
  induction s as [|c s IH]; cbn [includes]; rewrite orb_true_iff, startsWith_spec.
  - split.
    + intros [[rest ->]|?]; [|done]. by exists EmptyString, rest.
    + intros ([|c before] & rest & H); [|discriminate]. left. eauto.
  - rewrite IH. split.
    + intros [[rest ->]|(before & rest & ->)].
      * by exists EmptyString, rest.
      * by exists (String c before), rest.
    + intros ([|c' before] & rest & H).
      * left. eauto.
      * rewrite app_cons in H. injection H as <- ->. right. eauto.
Qed.

Lemma toLowerCase_app a b :
  toLowerCase (a +:+ b) = toLowerCase a +:+ toLowerCase b.
Proof.
  induction a as [|c a IH]; [done|].
  rewrite app_cons. cbn [toLowerCase]. by rewrite IH.
Qed.

(** A cut of the lower-cased text is the image of a cut of the text. *)
Lemma toLowerCase_cut s a b :
  toLowerCase s = a +:+ b →
  ∃ s1 s2, s = s1 +:+ s2 ∧ toLowerCase s1 = a ∧ toLowerCase s2 = b.
Proof.
  revert s. induction a as [|c a IH]; intros s H.
  - by exists EmptyString, s.
  - destruct s as [|d s]; [discriminate|].
    rewrite app_cons in H. cbn [toLowerCase] in H. injection H as Hc H.
    destruct (IH _ H) as (s1 & s2 & -> & <- & <-).
    exists (String d s1), s2. by rewrite <- Hc.
Qed.

Lemma all_units_complete c : c ∈ all_units.
Proof.
  unfold all_units. apply list_elem_of_fmap. exists (nat_of_ascii c).
  split; [by rewrite ascii_nat_embedding|].
  apply elem_of_seq. pose proof (nat_ascii_bounded c). lia.
Qed.

(** Ignoring case is comparing lower-case forms: checked on every pair of
    units. *)
Lemma same_unit_lower c d :
  same_unit_ignoring_case c d = true ↔ lower_unit c = lower_unit d.
Proof.
  assert (Hall : forallb (λ x, forallb (λ y,
            bool_decide (same_unit_ignoring_case x y
                         = bool_decide (lower_unit x = lower_unit y)))
            all_units) all_units = true) by (vm_compute; reflexivity).
  rewrite forallb_forall in Hall.
  pose proof (Hall c (proj1 (list_elem_of_In _ _) (all_units_complete c))) as Hc.
  rewrite forallb_forall in Hc.
  pose proof (Hc d (proj1 (list_elem_of_In _ _) (all_units_complete d))) as Hcd.
  apply bool_decide_eq_true in Hcd. rewrite Hcd. apply bool_decide_eq_true.
Qed.

Lemma same_ignoring_case_lower a b :
  same_ignoring_case a b = true ↔ toLowerCase a = toLowerCase b.
Proof.
  revert b. induction a as [|c a IH]; intros [|d b]; cbn; try done.
  rewrite andb_true_iff, same_unit_lower, IH.
  split; [by intros [-> ->] | by intros [= -> ->]].
Qed.

Lemma includes_toLowerCase s q :
  includes (toLowerCase s) (toLowerCase q) = true ↔ contains_ignoring_case s q.
Proof.
  rewrite includes_spec. unfold contains_ignoring_case. split.
  - intros (a & b & H).
    destruct (toLowerCase_cut _ _ _ H) as (s1 & s' & -> & <- & H').
    destruct (toLowerCase_cut _ _ _ H') as (s2 & s3 & -> & Hq & <-).
    exists s1, s2, s3. by rewrite same_ignoring_case_lower.
  - intros (s1 & s2 & s3 & -> & Hq%same_ignoring_case_lower).
    exists (toLowerCase s1), (toLowerCase s3).
    by rewrite !toLowerCase_app, Hq.
Qed.

Lemma app_assoc_string a b s : (a +:+ b) +:+ s = a +:+ b +:+ s.
Proof. induction a as [|x a IH]; [done|]. by rewrite !app_cons, IH. Qed.

Lemma app_empty_r a : a +:+ EmptyString = a.
Proof. induction a as [|x a IH]; [done|]. by rewrite app_cons, IH. Qed.

Lemma trimStart_spec s :
  ∃ a, s = a +:+ trimStart s ∧ all_white a = true ∧
       starts_white (trimStart s) = false.
Proof.
  induction s as [|c s (a & Hs & Ha & Hstart)].
  - by exists EmptyString.
  - cbn [trimStart]. destruct (is_white c) eqn:Hc.
    + exists (String c a). rewrite app_cons, <- Hs. cbn. by rewrite Hc.
    + exists EmptyString. by cbn.
Qed.

Lemma trimEnd_spec s :
  ∃ b, s = trimEnd s +:+ b ∧ all_white b = true ∧
       ends_white (trimEnd s) = false.
Proof.
  induction s as [|c s (b & Hs & Hb & Hend)].
  - by exists EmptyString.
  - cbn [trimEnd]. destruct (trimEnd s) as [|d r] eqn:Hr.
    + cbn in Hs. subst s. destruct (is_white c) eqn:Hc.
      * exists (String c b). cbn. by rewrite Hc.
      * exists b. cbn. by rewrite Hc.
    + exists b. rewrite app_cons, <- Hs. by split.
Qed.

Lemma trimEnd_starts_white s :
  starts_white s = false → starts_white (trimEnd s) = false.
Proof.
  destruct s as [|c s]; [done|]. cbn. intros Hc.
  destruct (trimEnd s); [by rewrite Hc | done].
Qed.

(** [trim] takes the white space off both ends, and all of it. *)
Lemma trim_spec s :
  ∃ a b, s = a +:+ trim s +:+ b ∧ all_white a = true ∧ all_white b = true ∧
         starts_white (trim s) = false ∧ ends_white (trim s) = false.
Proof.
  destruct (trimStart_spec s) as (a & Hs & Ha & Hstart).
  destruct (trimEnd_spec (trimStart s)) as (b & Ht & Hb & Hend).
  exists a, b. unfold trim. rewrite <- Ht.
  split_and!; [done..| by apply trimEnd_starts_white | done].
Qed.

Lemma truthy_toLowerCase s : truthy (toLowerCase s) = truthy s.
Proof. by destruct s. Qed.

Lemma truthy_true s : truthy s = true ↔ s ≠ EmptyString.
Proof. by destruct s. Qed.

Lemma or_empty_id s : or_empty s = s.
Proof. by destruct s. Qed.

Lemma or_null_Some s : s ≠ EmptyString → or_null (Some s) = Some s.
Proof. by destruct s. Qed.

End strings.

(** ** The search view *)

Lemma matches_hit q n :
  matches (toLowerCase q) n = true ↔ hit q n.
Proof.
  unfold matches, hit.
  by rewrite orb_true_iff, !or_empty_id, !includes_toLowerCase.
Qed.

(** C9: whatever the query, the view keeps the notes in the order of the
    collection: it is a subsequence of it. *)
Theorem filtered_sublist (l : list Note) (query : string) :
  filtered l query `sublist_of` l.
Proof.
  unfold filtered. case (truthy _); [apply sublist_filter | done].
Qed.

(** ** The note store *)

Section store.
Implicit Types (l pre post : list Note) (n m : Note) (sid : string).

Lemma updateNote_lookup sid patch now l i :
  updateNote sid patch now l !! i =
  (λ n, if decide (id n = sid) then merge n patch (now i) else n) <$> l !! i.
Proof. unfold updateNote. by rewrite list_lookup_imap. Qed.

Lemma updateNote_length sid patch now l :
  length (updateNote sid patch now l) = length l.
Proof. unfold updateNote. by rewrite length_imap. Qed.

(** The ids, position by position, are those before the update. *)
Lemma updateNote_ids sid patch now l : ids (updateNote sid patch now l) = ids l.
Proof.
  apply list_eq. intros i. unfold ids.
  rewrite !list_lookup_fmap, updateNote_lookup.
  destruct (l !! i) as [n|]; [cbn | done]. by case_decide.
Qed.

Lemma updateNote_absent sid patch now l :
  sid ∉ ids l → updateNote sid patch now l = l.
Proof.
  intros Hsid. apply list_eq. intros i. rewrite updateNote_lookup.
  destruct (l !! i) as [n|] eqn:Hi; [cbn | done].
  case_decide as Hn; [|done]. destruct Hsid. subst sid.
  apply list_elem_of_fmap_2. by eapply list_elem_of_lookup_2.
Qed.

Lemma deleteNote_absent sid l : sid ∉ ids l → deleteNote sid l = l.
Proof.
  unfold deleteNote, ids. induction l as [|n l IH]; [done|].
  rewrite fmap_cons, not_elem_of_cons. intros [Hn Hl].
  rewrite filter_cons_True by done. by rewrite IH.
Qed.

Lemma deleteNote_elem_of sid l n :
  n ∈ deleteNote sid l ↔ n ∈ l ∧ id n ≠ sid.
Proof. unfold deleteNote. rewrite list_elem_of_filter. tauto. Qed.

Lemma deleteNote_gone sid l : sid ∉ ids (deleteNote sid l).
Proof.
  unfold ids. intros (n & -> & Hn)%list_elem_of_fmap.
  apply deleteNote_elem_of in Hn. by destruct Hn.
Qed.

Lemma deleteNote_idempotent sid l :
  deleteNote sid (deleteNote sid l) = deleteNote sid l.
Proof. apply deleteNote_absent, deleteNote_gone. Qed.

(** Deleting the one note that carries [sid] leaves its neighbours. *)
Lemma deleteNote_middle sid pre n post :
  id n = sid → sid ∉ ids pre → sid ∉ ids post →
  deleteNote sid (pre ++ n :: post) = pre ++ post.
Proof.
  intros Hn Hpre%deleteNote_absent Hpost%deleteNote_absent.
  unfold deleteNote in *.
  rewrite filter_app, filter_cons_False by (by intros []).
  by rewrite Hpre, Hpost.
Qed.

Lemma deleteNote_sublist sid l : deleteNote sid l `sublist_of` l.
Proof. apply sublist_filter. Qed.

Lemma deleteNote_ids_sublist sid l : ids (deleteNote sid l) `sublist_of` ids l.
Proof. unfold ids. apply fmap_sublist, deleteNote_sublist. Qed.

End store.

(** C2: on every collection, [create()] puts in front of it a note titled
    Untitled, with empty content and both timestamps at the clock reading,
    keeps the notes that were there, in their order, behind it, and returns
    the id of the new note. *)
Theorem createNote_spec (now : Z) (frac : string) (tick : Z) (prev : list Note) :
  ∃ n, createNote now frac tick prev = (id n, n :: prev) ∧
       title n = "Untitled" ∧ content n = EmptyString ∧
       createdAt n = now ∧ updatedAt n = now ∧ createdAt n = updatedAt n.
Proof. unfold createNote. eexists. by split. Qed.

(** C4: with an id that no note carries, [update] and [delete] return the
    collection as it was; [delete] removes the notes with the id and no
    other, keeps the order of the rest, takes exactly the matching note out
    of a collection that holds the id once, and changes nothing when
    applied a second time. *)
Theorem missing_id_noop (l : list Note) (sid : string) :
  (sid ∉ ids l →
   (∀ patch now, updateNote sid patch now l = l) ∧ deleteNote sid l = l) ∧
  (∀ n, n ∈ deleteNote sid l ↔ n ∈ l ∧ id n ≠ sid) ∧
  deleteNote sid l `sublist_of` l ∧
  (∀ pre n post, l = pre ++ n :: post → id n = sid →
     sid ∉ ids pre → sid ∉ ids post → deleteNote sid l = pre ++ post) ∧
  deleteNote sid (deleteNote sid l) = deleteNote sid l.
Proof.
  split_and!.
  - intros Hsid. split; [intros patch now|].
    + by apply updateNote_absent.
    + by apply deleteNote_absent.
  - intros n. apply deleteNote_elem_of.
  - apply deleteNote_sublist.
  - intros pre n post -> Hn Hpre Hpost. by apply deleteNote_middle.
  - apply deleteNote_idempotent.
Qed.

Lemma missing_id_noop_witness :
  let l := [mkNote "a" "A" "x" 1 1; mkNote "b" "B" "y" 2 2] in
  ("c" ∉ ids l) ∧
  (∀ patch now, updateNote "c" patch now l = l) ∧ deleteNote "c" l = l.
Proof.
  intros l.
  assert (H : "c" ∉ ids l) by by_compute.
  split; [exact H|]. exact (proj1 (missing_id_noop l "c") H).
Defined.

(** C3 (as amended): [update(id, {title: X})] gives the note with that id
    the title X and the clock reading taken for it as [updatedAt], which is
    at least [createdAt] whenever that reading is not earlier than
    [createdAt]; its content, id and [createdAt] stay, every note with
    another id stays as it is, and every position keeps its id. *)
Theorem updateNote_title (l : list Note) (sid X : string) (now : nat → Z)
    (i : nat) (n : Note) :
  l !! i = Some n → id n = sid →
  let l' := updateNote sid (mkPatch (Some X) None) now l in
  length l' = length l ∧ ids l' = ids l ∧
  (∃ n', l' !! i = Some n' ∧ title n' = X ∧ updatedAt n' = now i ∧
         content n' = content n ∧ id n' = id n ∧ createdAt n' = createdAt n ∧
         (createdAt n ≤ now i → createdAt n' ≤ updatedAt n')) ∧
  (∀ j m, l !! j = Some m → id m ≠ sid → l' !! j = Some m).
Proof.
  intros Hi Hn l'. subst l'. split_and!.
  - apply updateNote_length.
  - apply updateNote_ids.
  - eexists. rewrite updateNote_lookup, Hi. cbn. rewrite decide_True by done.
    split; [done|]. cbn. by split_and!.
  - intros j m Hj Hm. rewrite updateNote_lookup, Hj. cbn.
    by rewrite decide_False.
Qed.

Lemma updateNote_title_witness :
  let n := mkNote "a" "old" "text" 100 100 in
  let l' := updateNote "a" (mkPatch (Some "X") None) (λ _, 250) [n] in
  l' = [mkNote "a" "X" "text" 100 250] ∧ ids l' = ["a"].
Proof.
  intros n l'.
  destruct (updateNote_title [n] "a" "X" (λ _, 250) 0 n eq_refl eq_refl)
    as (_ & Hids & _ & _).
  split; [reflexivity | exact Hids].
Defined.

(** C3 as first stated fails: a note whose [updatedAt] is at least its
    [createdAt] ends with an earlier [updatedAt] when the clock reads a
    time before its creation. *)
Lemma updateNote_clock_counterexample :
  let n := mkNote "a" "old" "text" 100 100 in
  createdAt n ≤ updatedAt n ∧
  ∃ n', updateNote "a" (mkPatch (Some "X") None) (λ _, 50) [n] = [n'] ∧
        title n' = "X" ∧ ¬ (createdAt n' ≤ updatedAt n').
Proof.
  intros n. split; [by_compute|]. eexists. split; [reflexivity|].
  split; [reflexivity | by_compute].
Qed.

(** ** Ids *)

Lemma digit_value_digit d : (d < 36)%N → Radix.digit_value (Radix.digit d) = d.
Proof.
  intros Hd. unfold Radix.digit_value, Radix.digit.
  destruct (N.ltb_spec d 10).
  - rewrite N_ascii_embedding by lia.
    destruct (N.ltb_spec (48 + d) 58); lia.
  - rewrite N_ascii_embedding by lia.
    destruct (N.ltb_spec (87 + d) 58); lia.
Qed.

Lemma value_from_app base acc a b :
  Radix.value_from base acc (a +:+ b) =
  Radix.value_from base (Radix.value_from base acc a) b.
Proof. revert acc. induction a as [|c a IH]; intros acc; [done|]. apply IH. Qed.

(** With fuel for them, the digits written are those of [n]. *)
Lemma digits_value base fuel n acc :
  (2 ≤ base ≤ 36)%N → (n < base ^ N.of_nat (S fuel))%N →
  ∃ ds, Radix.digits base fuel n acc = ds +:+ acc ∧
        Radix.value_from base 0 ds = n.
Proof.
  intros Hbase.
  assert (Hmod : ∀ m, Radix.digit_value (Radix.digit (m mod base)) = (m mod base)%N).
  { intros m. apply digit_value_digit. pose proof (N.mod_lt m base). lia. }
  revert n acc. induction fuel as [|fuel IH]; intros n acc Hn.
  - exists (String (Radix.digit (n mod base)) EmptyString). split; [done|].
    cbn. rewrite N.pow_1_r in Hn. rewrite Hmod, N.mod_small; lia.
  - cbn [Radix.digits]. destruct (N.eqb_spec (n / base) 0) as [Hq|Hq].
    + exists (String (Radix.digit (n mod base)) EmptyString). split; [done|].
      cbn. apply N.div_small_iff in Hq; [|lia].
      rewrite Hmod, N.mod_small; lia.
    + destruct (IH (n / base)%N (String (Radix.digit (n mod base)) acc))
        as (ds & Hds & Hval).
      { apply N.Div0.div_lt_upper_bound.
        rewrite Nat2N.inj_succ, N.pow_succ_r' in Hn. done. }
      exists (ds +:+ String (Radix.digit (n mod base)) EmptyString). split.
      * by rewrite Hds, app_assoc_string.
      * rewrite value_from_app, Hval. cbn. rewrite Hmod.
        symmetry. apply N.div_mod. lia.
Qed.

Lemma size_nat_bound n : (n < 2 ^ N.of_nat (N.size_nat n))%N.
Proof.
  destruct n as [|p]; [done|]. cbn [N.size_nat].
  induction p as [p IH|p IH|]; cbn [Pos.size_nat];
    rewrite ?Nat2N.inj_succ, ?N.pow_succ_r'; lia.
Qed.

(** The loop of [Radix.of_N] never stops for want of fuel: the digits
    it writes read back as the number. *)
Lemma value_of_N base n :
  (2 ≤ base ≤ 36)%N → Radix.value_from base 0 (Radix.of_N base n) = n.
Proof.
  intros Hbase. unfold Radix.of_N.
  destruct (digits_value base (N.size_nat n) n EmptyString Hbase)
    as (ds & -> & Hval).
  - eapply N.lt_le_trans; [apply size_nat_bound|].
    rewrite Nat2N.inj_succ, N.pow_succ_r'.
    etrans; [apply (N.pow_le_mono_l 2 base); lia|].
    assert (0 < base ^ N.of_nat (N.size_nat n))%N
      by (apply N.neq_0_lt_0, N.pow_nonzero; lia).
    nia.
  - by rewrite app_empty_r.
Qed.

Lemma digits_not_empty base fuel n acc :
  Radix.digits base fuel n acc ≠ EmptyString.
Proof.
  revert n acc. induction fuel as [|fuel IH]; intros n acc; cbn; [done|].
  case (_ =? _)%N; [done | apply IH].
Qed.

Lemma to_string_not_empty base z : Radix.to_string base z ≠ EmptyString.
Proof.
  unfold Radix.to_string. case (z <? 0); [done | apply digits_not_empty].
Qed.

Lemma append_not_empty (a b : string) : b ≠ EmptyString → a +:+ b ≠ EmptyString.
Proof. by destruct a. Qed.

(** An id made by [uid] is never the empty string. *)
Lemma uid_not_empty frac tick : uid frac tick ≠ EmptyString.
Proof. apply append_not_empty, to_string_not_empty. Qed.

(** Every note of a collection built by the store from nothing has a
    non-empty id. *)
Lemma run_ids_not_empty acts l :
  Forall (λ n, id n ≠ EmptyString) l →
  Forall (λ n, id n ≠ EmptyString) (run acts l).
Proof.
  revert l. induction acts as [|act acts IH]; intros l Hl; [done|].
  apply IH. destruct act as [now frac tick|sid patch now|sid]; cbn.
  - constructor; [apply uid_not_empty | done].
  - apply Forall_lookup. intros i n. rewrite updateNote_lookup.
    destruct (l !! i) as [m|] eqn:Hi; [|done]. cbn. intros [= <-].
    pose proof (Forall_lookup_1 _ _ _ _ Hl Hi). by case_decide.
  - apply Forall_forall. intros n [Hn _]%deleteNote_elem_of.
    by apply (proj1 (Forall_forall _ _) Hl).
Qed.

Lemma apply_action_NoDup l act :
  match act with
  | Create _ frac tick => uid frac tick ∉ ids l
  | _ => True
  end →
  NoDup (ids l) → NoDup (ids (apply_action l act)).
Proof.
  destruct act as [now frac tick|sid patch now|sid]; cbn; intros Hfresh Hl.
  - by apply NoDup_cons.
  - by rewrite updateNote_ids.
  - eapply sublist_NoDup; [done | apply deleteNote_ids_sublist].
Qed.

Lemma run_NoDup acts l :
  fresh_creates acts l = true → NoDup (ids l) → NoDup (ids (run acts l)).
Proof.
  revert l. induction acts as [|act acts IH]; intros l; [done|].
  cbn [fresh_creates]. rewrite andb_true_iff. intros [Hact Hrest] Hl.
  apply IH; [done|]. apply apply_action_NoDup; [|done].
  destruct act; [by apply bool_decide_eq_true in Hact | done..].
Qed.

(** C8 (as amended): after any sequence of create, update and delete from
    the empty collection in which every create drew an id that no note
    carried at that moment, the ids of the collection are pairwise
    distinct; update and delete never break that. *)
Theorem distinct_ids (acts : list action) :
  fresh_creates acts [] = true → NoDup (ids (run acts [])).
Proof. intros H. apply run_NoDup; [done | constructor]. Qed.

Lemma distinct_ids_witness :
  let acts := [Create 5 "k" 5; Create 6 "k" 6;
               Update "k5" (mkPatch (Some "X") None) (λ _, 7); Delete "k6"] in
  fresh_creates acts [] = true ∧ NoDup (ids (run acts [])).
Proof.
  intros acts.
  assert (H : fresh_creates acts [] = true) by (vm_compute; reflexivity).
  split; [exact H | exact (distinct_ids acts H)].
Defined.

(** C8 as first stated fails: two creates that draw the same random digits
    within the same millisecond give two notes the same id. *)
Lemma uid_collision_counterexample :
  let acts := [Create 5 "k" 5; Create 5 "k" 5] in
  ids (run acts []) = ["k5"; "k5"] ∧ ¬ NoDup (ids (run acts [])).
Proof.
  intros acts. split; [reflexivity|].
  intros H. apply NoDup_cons in H as [H _]. apply H. by_compute.
Qed.

(** ** The selection policy *)

(** In front of the first note that fails [P] the filter changes nothing. *)
Lemma filter_lookup_before {A} (P : A → Prop) `{!∀ x, Decision (P x)}
    (l : list A) (i j : nat) :
  (∀ k x, l !! k = Some x → (k < i)%nat → P x) →
  (j < i)%nat → (i ≤ length l)%nat → filter P l !! j = l !! j.
Proof.
  intros Hbefore Hj Hi.
  rewrite <- (take_drop i l) at 1. rewrite filter_app.
  assert (Hall : filter P (take i l) = take i l).
  { clear Hj j. revert i Hbefore Hi. induction l as [|x l IH]; intros [|i] Hb Hi; try done.
    cbn [take]. rewrite filter_cons_True by (apply (Hb 0%nat); [done | lia]).
    f_equal. apply IH; [|cbn in Hi; lia].
    intros k y Hk Hlt. apply (Hb (S k)); [done | lia]. }
  rewrite Hall, lookup_app_l by (rewrite length_take; lia).
  apply lookup_take_lt. lia.
Qed.

Lemma handleDelete_Some a n :
  selected a = Some n →
  handleDelete a =
  {| notes := deleteNote (id n) (notes a);
     selectedId := id_at (deleteNote (id n) (notes a))
                         (Z.max 0 (findIndex (id n) (notes a) - 1)) |}.
Proof. intros Hsel. unfold handleDelete. by rewrite Hsel. Qed.

(** What [findIndex] returning [i] says of the collection. *)
Lemma findIndex_nat sid l i :
  findIndex sid l = Z.of_nat i →
  (i < length l)%nat ∧ ∀ j y, l !! j = Some y → (j < i)%nat → id y ≠ sid.
Proof.
  unfold findIndex.
  destruct (list_find _ l) as [[k x]|] eqn:Hfind; [|lia].
  intros ->%Nat2Z.inj. apply list_find_Some in Hfind as (Hi & _ & Hbefore).
  split; [by eapply lookup_lt_Some | done].
Qed.

Lemma id_at_lookup l k p :
  l !! k = Some p → id p ≠ EmptyString → id_at l (Z.of_nat k) = Some (id p).
Proof.
  intros Hk Hid. unfold id_at.
  destruct (Z.ltb_spec (Z.of_nat k) 0); [lia|].
  rewrite Nat2Z.id, Hk. by apply or_null_Some.
Qed.

Lemma id_at_nil k : id_at [] k = None.
Proof. unfold id_at. by case (k <? 0). Qed.

(** The note at position [k] is the selected one when its id is the
    selection and no note in front of it carries that id. *)
Lemma selected_lookup l k p :
  l !! k = Some p →
  (∀ j y, l !! j = Some y → (j < k)%nat → id y ≠ id p) →
  selected (mkApp l (Some (id p))) = Some p.
Proof.
  intros Hk Hbefore. unfold selected. cbn [notes selectedId].
  assert (Hfind : list_find (is_selected (Some (id p))) l = Some (k, p)).
  { apply list_find_Some. split_and!; [done..|].
    intros j y Hj Hlt [= Hy]. by apply (Hbefore j y). }
  by rewrite Hfind.
Qed.

(** C1 (as amended): deleting the selected note, found at index [i], leaves
    the collection without it and selects the note that stood at index
    [i - 1] when [i] is not 0, the new first note when [i] is 0 and notes
    remain, each provided the id of that note is not the empty string, and
    nothing when no note remains. *)
Theorem handleDelete_selection (a : App) (n : Note) (i : nat) :
  selected a = Some n → findIndex (id n) (notes a) = Z.of_nat i →
  let a' := handleDelete a in
  let remaining := deleteNote (id n) (notes a) in
  notes a' = remaining ∧
  (∀ p, (0 < i)%nat → notes a !! (i - 1)%nat = Some p →
        id p ≠ EmptyString → selectedId a' = Some (id p)) ∧
  (∀ r, i = 0%nat → remaining !! 0%nat = Some r →
        id r ≠ EmptyString → selectedId a' = Some (id r)) ∧
  (remaining = [] → selectedId a' = None).
Proof.
  intros Hsel Hidx a' remaining. subst a' remaining.
  rewrite (handleDelete_Some _ _ Hsel), Hidx. cbn [notes selectedId].
  apply findIndex_nat in Hidx as [Hi Hbefore].
  split_and!; [done|..].
  - intros p Hpos Hp Hid.
    replace (Z.max 0 (Z.of_nat i - 1)) with (Z.of_nat (i - 1)) by lia.
    apply id_at_lookup; [|done]. unfold deleteNote.
    rewrite (filter_lookup_before _ _ i); [done | | lia..].
    intros j y Hj Hlt. by apply (Hbefore j y).
  - intros r -> Hr Hid. by apply (id_at_lookup _ 0).
  - intros ->. apply id_at_nil.
Qed.

(** The scenario of the specification: in [C, B, A] with B selected,
    deleting B selects C. *)
Lemma handleDelete_selection_witness :
  let A := mkNote "a" "A" "" 1 1 in
  let B := mkNote "b" "B" "" 2 2 in
  let C := mkNote "c" "C" "" 3 3 in
  let a := mkApp [C; B; A] (Some "b") in
  selected a = Some B ∧ findIndex "b" (notes a) = 1 ∧
  notes (handleDelete a) = [C; A] ∧ selectedId (handleDelete a) = Some "c".
Proof.
  intros A B C a.
  assert (Hsel : selected a = Some B) by reflexivity.
  assert (Hidx : findIndex (id B) (notes a) = Z.of_nat 1) by reflexivity.
  destruct (handleDelete_selection a B 1 Hsel Hidx) as (Hnotes & Hprev & _ & _).
  split_and!; [exact Hsel | exact Hidx | exact Hnotes |].
  apply (Hprev C); [lia | reflexivity | discriminate].
Defined.

(** C1 as first stated fails where the note to select has the empty string
    as its id: in [a; e; b] with b selected and e carrying the empty id,
    deleting b selects no note, and the effect that follows selects the
    first note, not e, the note at the index before b. *)
Lemma handleDelete_empty_id_counterexample :
  let x := mkNote "a" "A" "" 1 1 in
  let e := mkNote EmptyString "E" "" 2 2 in
  let b := mkNote "b" "B" "" 3 3 in
  let a := mkApp [x; e; b] (Some "b") in
  selected a = Some b ∧ findIndex "b" (notes a) = 2 ∧ notes a !! 1%nat = Some e ∧
  selectedId (handleDelete a) = None ∧
  selectedId (handleDelete a) ≠ Some (id e) ∧
  selected (autoSelect (handleDelete a)) = Some x.
Proof. intros x e b a. by split_and!. Qed.

(** With pairwise distinct ids the note selected after the deletion is the
    very note of index [i - 1], not another one with its id. *)
Lemma handleDelete_selected_note (a : App) (n p : Note) (i : nat) :
  selected a = Some n → findIndex (id n) (notes a) = Z.of_nat i →
  NoDup (ids (notes a)) → (0 < i)%nat → notes a !! (i - 1)%nat = Some p →
  id p ≠ EmptyString → selected (handleDelete a) = Some p.
Proof.
  intros Hsel Hidx Hdup Hpos Hp Hid.
  rewrite (handleDelete_Some _ _ Hsel), Hidx.
  apply findIndex_nat in Hidx as [Hi Hbefore].
  assert (Hkeep : ∀ j, (j < i)%nat →
            deleteNote (id n) (notes a) !! j = notes a !! j).
  { intros j Hj. unfold deleteNote.
    rewrite (filter_lookup_before _ _ i); [done | | lia..].
    intros k y Hk Hlt. by apply (Hbefore k y). }
  replace (Z.max 0 (Z.of_nat i - 1)) with (Z.of_nat (i - 1)) by lia.
  rewrite (id_at_lookup _ _ p); [|by rewrite Hkeep by lia | done].
  apply (selected_lookup _ (i - 1)); [by rewrite Hkeep by lia|].
  intros j y Hj Hlt Hy. rewrite Hkeep in Hj by lia.
  assert (j = (i - 1)%nat); [|lia].
  apply (NoDup_lookup _ _ _ (id p) Hdup); unfold ids;
    rewrite list_lookup_fmap; [by rewrite Hj; cbn; rewrite Hy | by rewrite Hp].
Qed.

(** On a collection the store built from nothing the proviso on the id
    holds by itself: deleting the selected note of index [i > 0] selects the
    note of index [i - 1]. *)
Lemma handleDelete_after_run (acts : list action) (sel : option string)
    (n : Note) (i : nat) :
  let a := mkApp (run acts []) sel in
  selected a = Some n → findIndex (id n) (notes a) = Z.of_nat i → (0 < i)%nat →
  ∃ p, notes a !! (i - 1)%nat = Some p ∧
       selectedId (handleDelete a) = Some (id p).
Proof.
  intros a Hsel Hidx Hpos.
  rewrite (handleDelete_Some _ _ Hsel), Hidx. cbn [selectedId].
  apply findIndex_nat in Hidx as [Hi Hbefore].
  destruct (lookup_lt_is_Some_2 (notes a) (i - 1)) as [p Hp]; [lia|].
  exists p. split; [done|].
  replace (Z.max 0 (Z.of_nat i - 1)) with (Z.of_nat (i - 1)) by lia.
  apply id_at_lookup.
  - unfold deleteNote. rewrite (filter_lookup_before _ _ i); [done | | lia..].
    intros j y Hj Hlt. by apply (Hbefore j y).
  - assert (Hall := run_ids_not_empty acts [] (Forall_nil_2 _)).
    by apply (Forall_lookup_1 _ _ _ _ Hall Hp).
Qed.

(** The first scenario of the specification: from the empty collection,
    create, edit, search, delete. *)
Example scenario_create_edit_search_delete :
  let a0 := mkApp [] None in
  let a1 := handleCreate 5 "k" 5 a0 in
  let a2 := handleUpdate (mkPatch (Some "Groceries") (Some "Milk")) (λ _, 9) a1 in
  let a3 := handleDelete a2 in
  notes a1 = [mkNote "k5" "Untitled" "" 5 5] ∧ selectedId a1 = Some "k5" ∧
  notes a2 = [mkNote "k5" "Groceries" "Milk" 5 9] ∧
  filtered (notes a2) "milk" = notes a2 ∧
  a3 = mkApp [] None.
Proof. by split_and!. Qed.

(** ** Persistence *)

Section persistence.
Implicit Types (key text : list N) (st : Storage) (v : json).

(** The body of the [try] of [load], by cases on the storage. *)
Lemma load_unfold key v st :
  load key v st =
  if available st then
    match items st !! key with
    | Some (c :: text) =>
        match JSON_parse (c :: text) with
        | Some parsed => (Normal parsed, st)
        | None => (Normal v, st)
        end
    | _ => (Normal v, st)
    end
  else (Normal v, st).
Proof.
  unfold load, try_catch, mbind, Eff_bind, getItem.
  destruct (available st); [|done].
  destruct (items st !! key) as [[|c text]|]; [done| |done].
  unfold parse. by destruct (JSON_parse (c :: text)).
Qed.

Lemma save_unfold key v st :
  save key v st =
  match setItem key (JSON_stringify v) st with
  | (Normal _, st') => (Normal (), st')
  | (Throw _, st') => (Normal (), st')
  end.
Proof.
  unfold save, try_catch.
  by destruct (setItem key (JSON_stringify v) st) as [[[]|e] st'].
Qed.

(** A write that throws leaves the storage as it was. *)
Lemma setItem_Throw key text st e :
  fst (setItem key text st) = Throw e → snd (setItem key text st) = st.
Proof.
  unfold setItem. destruct (available st); [|done]. by case_decide.
Qed.

(** [save] completes normally in every storage. *)
Lemma save_Normal key v st : fst (save key v st) = Normal ().
Proof.
  rewrite save_unfold. by destruct (setItem _ _ st) as [[[]|e] st'].
Qed.

End persistence.

(** [JSON_parse] on some texts: values of every kind, and texts it refuses. *)
Example JSON_parse_examples :
  JSON_parse (units " [1, -2.5e3, true, null, [], {}] ") =
    Some (JArr [JNum 1 0; JNum (-25) 2; JBool true; JNull; JArr []; JObj []]) ∧
  JSON_parse ([123; 34; 97; 92; 110; 34; 58; 34; 92; 117; 48; 48; 52; 49; 34; 125]%N) =
    Some (JObj [([97; 10]%N, JStr [65%N])]) ∧
  JSON_parse (units "") = None ∧ JSON_parse (units "01") = None ∧
  JSON_parse (units "1.") = None ∧ JSON_parse (units "[1,]") = None ∧
  JSON_parse (units "nul") = None ∧ JSON_parse (units "[1] x") = None ∧
  JSON_parse (units "{oops") = None ∧ JSON_parse (units "'a'") = None.
Proof. by split_and!. Qed.

(** What [save] writes, [load] reads back: a collection whose texts hold a
    quote, a backslash and a line feed. *)
Example save_then_load :
  let n := mkNote "k5" (String "034"%char "a\b") (String "010"%char "Milk") 5 9 in
  let st := mkStorage true 1000 ∅ in
  ∀ v, v = json_of_notes [n; n] →
       fst (load STORAGE_KEY (JArr []) (snd (save STORAGE_KEY v st))) = Normal v.
Proof. intros n st v ->. vm_compute. reflexivity. Qed.

(** C6 (as amended): [load] never throws and leaves the storage as it is;
    it returns the default when the storage cannot be read, when the key is
    absent, when the stored text is empty and when the text is not
    well-formed JSON; a well-formed text is returned as the value it
    denotes, whatever the shape of that value. *)
Theorem load_fallback (key : list N) (initialValue : json) (st : Storage) :
  snd (load key initialValue st) = st ∧
  (∃ v, fst (load key initialValue st) = Normal v) ∧
  (available st = false → fst (load key initialValue st) = Normal initialValue) ∧
  (items st !! key = None → fst (load key initialValue st) = Normal initialValue) ∧
  (items st !! key = Some [] →
   fst (load key initialValue st) = Normal initialValue) ∧
  (∀ text, items st !! key = Some text → JSON_parse text = None →
           fst (load key initialValue st) = Normal initialValue) ∧
  (∀ text v, available st = true → items st !! key = Some text →
             JSON_parse text = Some v →
             fst (load key initialValue st) = Normal v).
Proof.
  rewrite load_unfold. split_and!.
  - destruct (available st); [|done].
    destruct (items st !! key) as [[|c text]|]; [done| |done].
    by destruct (JSON_parse (c :: text)).
  - destruct (available st); [|by eexists].
    destruct (items st !! key) as [[|c text]|]; [by eexists| |by eexists].
    destruct (JSON_parse (c :: text)); by eexists.
  - by intros ->.
  - intros ->. by destruct (available st).
  - intros ->. by destruct (available st).
  - intros text -> Hparse. destruct (available st); [|done].
    destruct text as [|c text]; [done|]. by rewrite Hparse.
  - intros text v -> -> Hparse.
    destruct text as [|c text]; [done|]. by rewrite Hparse.
Qed.

(** A payload that is not JSON under the notes key: [load] gives the empty
    collection. *)
Lemma load_fallback_witness :
  let st := mkStorage true 1000 {[ STORAGE_KEY := units "{oops" ]} in
  items st !! STORAGE_KEY = Some (units "{oops") ∧
  JSON_parse (units "{oops") = None ∧
  fst (load STORAGE_KEY (JArr []) st) = Normal (JArr []).
Proof.
  intros st.
  assert (Hget : items st !! STORAGE_KEY = Some (units "{oops"))
    by (vm_compute; reflexivity).
  assert (Hparse : JSON_parse (units "{oops") = None) by (vm_compute; reflexivity).
  split_and!; [exact Hget | exact Hparse |].
  destruct (load_fallback STORAGE_KEY (JArr []) st) as (_ & _ & _ & _ & _ & H & _).
  exact (H _ Hget Hparse).
Defined.

(** C6 as first stated fails: well-formed JSON of the wrong shape under the
    notes key (a number, a sequence holding an object with no field) is
    what [load] returns, not the empty collection. *)
Lemma load_wrong_shape_counterexample :
  let st1 := mkStorage true 1000 {[ STORAGE_KEY := units "42" ]} in
  let st2 := mkStorage true 1000 {[ STORAGE_KEY := units "[{}]" ]} in
  notes_shaped (JNum 42 0) = false ∧
  fst (load STORAGE_KEY (JArr []) st1) = Normal (JNum 42 0) ∧
  fst (load STORAGE_KEY (JArr []) st1) ≠ Normal (JArr []) ∧
  notes_shaped (JArr [JObj []]) = false ∧
  fst (load STORAGE_KEY (JArr []) st2) = Normal (JArr [JObj []]) ∧
  fst (load STORAGE_KEY (JArr []) st2) ≠ Normal (JArr []).
Proof.
  intros st1 st2.
  assert (H1 : fst (load STORAGE_KEY (JArr []) st1) = Normal (JNum 42 0))
    by (vm_compute; reflexivity).
  assert (H2 : fst (load STORAGE_KEY (JArr []) st2) = Normal (JArr [JObj []]))
    by (vm_compute; reflexivity).
  split_and!; [reflexivity | exact H1 | by rewrite H1
              | reflexivity | exact H2 | by rewrite H2].
Qed.

(** C7: when the write of [save] throws, the effect still completes
    normally, the two state cells keep their values and the storage is as
    it was before. *)
Theorem save_swallows_failure (key : list N) (value : json) (s : Session)
    (e : exn) :
  fst (setItem key (JSON_stringify value) (backend s)) = Throw e →
  fst (persist key value s) = Normal () ∧
  notes_cell (snd (persist key value s)) = notes_cell s ∧
  theme_cell (snd (persist key value s)) = theme_cell s ∧
  backend (snd (persist key value s)) = backend s.
Proof.
  intros Hthrow. pose proof (setItem_Throw _ _ _ _ Hthrow) as Hst.
  unfold persist. rewrite save_unfold.
  destruct (setItem key (JSON_stringify value) (backend s)) as [[[]|e'] st'];
    [done|]. cbn in *. by subst st'.
Qed.

(** Saving a collection over quota, and saving with the storage disabled. *)
Lemma save_swallows_failure_witness :
  let l := json_of_notes [mkNote "k5" "Groceries" "Milk" 5 9] in
  let full := mkSession l light (mkStorage true 10 ∅) in
  let off := mkSession l light (mkStorage false 1000 ∅) in
  (fst (persist_notes full) = Normal () ∧
   notes_cell (snd (persist_notes full)) = l ∧
   backend (snd (persist_notes full)) = mkStorage true 10 ∅) ∧
  (fst (persist_theme off) = Normal () ∧
   theme_cell (snd (persist_theme off)) = light ∧
   backend (snd (persist_theme off)) = mkStorage false 1000 ∅).
Proof.
  intros l full off.
  assert (H1 : fst (setItem STORAGE_KEY (JSON_stringify (notes_cell full))
                      (backend full)) = Throw QuotaExceededError)
    by (vm_compute; reflexivity).
  assert (H2 : fst (setItem STORAGE_THEME (JSON_stringify (theme_cell off))
                      (backend off)) = Throw SecurityError)
    by (vm_compute; reflexivity).
  destruct (save_swallows_failure _ _ _ _ H1) as (R1 & N1 & _ & B1).
  destruct (save_swallows_failure _ _ _ _ H2) as (R2 & _ & T2 & B2).
  split; split_and!; assumption.
Defined.

(** ** The theme *)

Lemma is_string_true s x : is_string s x = true ↔ x = JStr (units s).
Proof.
  destruct x; cbn; try (split; [discriminate | congruence]).
  rewrite bool_decide_eq_true. split; congruence.
Qed.

(** C10: [toggleTheme] sends light to dark and every other value to light;
    its result is always light or dark, and two toggles from light or from
    dark give the value back. *)
Theorem toggleTheme_spec :
  toggleTheme light = dark ∧
  (∀ t, t ≠ light → toggleTheme t = light) ∧
  (∀ t, toggleTheme t = light ∨ toggleTheme t = dark) ∧
  (∀ t, t = light ∨ t = dark → toggleTheme (toggleTheme t) = t).
Proof.
  split_and!.
  - reflexivity.
  - intros t Ht. unfold toggleTheme.
    destruct (is_string "light" t) eqn:H; [|done].
    by apply is_string_true in H.
  - intros t. unfold toggleTheme. destruct (is_string "light" t); auto.
  - by intros t [->| ->].
Qed.

(** A theme read from a corrupt storage, a number, becomes light. *)
Lemma toggleTheme_spec_witness :
  JNum 7 0 ≠ light ∧ toggleTheme (JNum 7 0) = light ∧
  toggleTheme (toggleTheme dark) = dark.
Proof.
  destruct toggleTheme_spec as (_ & Hother & _ & Htwice).
  assert (H : JNum 7 0 ≠ light) by discriminate.
  split_and!; [exact H | exact (Hother _ H) | apply Htwice; by right].
Defined.

(** * Further properties of the code *)

(** ** More on the search view *)

Section search.
Implicit Types (s q a b : string) (l : list Note) (n : Note).

Lemma filtered_truthy l query :
  trim query ≠ EmptyString →
  filtered l query = filter (λ n, matches (toLowerCase (trim query)) n) l.
Proof.
  intros Hq%truthy_true. unfold filtered. by rewrite truthy_toLowerCase, Hq.
Qed.

Lemma filtered_empty l query : trim query = EmptyString → filtered l query = l.
Proof. intros Hq. unfold filtered. by rewrite Hq. Qed.

Lemma filter_sublist_mono {A} (P Q : A → Prop)
    `{!∀ x, Decision (P x), !∀ x, Decision (Q x)} (k : list A) :
  (∀ x, P x → Q x) → filter P k `sublist_of` filter Q k.
Proof.
  intros HPQ. induction k as [|x k IH]; [done|].
  rewrite !filter_cons. destruct (decide (P x)) as [HP|HP].
  - rewrite decide_True by auto. by apply sublist_skip.
  - destruct (decide (Q x)); [by apply sublist_cons | done].
Qed.

(** White space is no letter: units that are the same up to case are both
    white space or both not. *)
Lemma lower_unit_white c : is_white (lower_unit c) = is_white c.
Proof.
  assert (Hall : forallb (λ x, bool_decide (is_white (lower_unit x) = is_white x))
                   all_units = true) by (vm_compute; reflexivity).
  rewrite forallb_forall in Hall.
  pose proof (Hall c (proj1 (list_elem_of_In _ _) (all_units_complete c))) as Hc.
  by apply bool_decide_eq_true in Hc.
Qed.

Lemma trimStart_toLowerCase s : trimStart (toLowerCase s) = toLowerCase (trimStart s).
Proof.
  induction s as [|c s IH]; [done|]. cbn. rewrite lower_unit_white.
  by destruct (is_white c).
Qed.

Lemma trimEnd_toLowerCase s : trimEnd (toLowerCase s) = toLowerCase (trimEnd s).
Proof.
  induction s as [|c s IH]; [done|]. cbn. rewrite IH, lower_unit_white.
  destruct (trimEnd s); [by destruct (is_white c) | done].
Qed.

Lemma trim_toLowerCase s : trim (toLowerCase s) = toLowerCase (trim s).
Proof. unfold trim. by rewrite trimStart_toLowerCase, trimEnd_toLowerCase. Qed.

Lemma trimStart_white a s : all_white a = true → trimStart (a +:+ s) = trimStart s.
Proof.
  induction a as [|c a IH]; [done|]. cbn [all_white]. rewrite andb_true_iff.
  intros [Hc Ha]. rewrite app_cons. cbn. rewrite Hc. auto.
Qed.

Lemma trimEnd_white s b : all_white b = true → trimEnd (s +:+ b) = trimEnd s.
Proof.
  intros Hb. assert (Hend : trimEnd b = EmptyString).
  { induction b as [|c b IH]; [done|]. cbn [all_white] in Hb.
    apply andb_true_iff in Hb as [Hc Hb]. cbn. by rewrite IH, Hc. }
  induction s as [|c s IH]; [done|]. rewrite app_cons. cbn. by rewrite IH.
Qed.

Lemma trimStart_app_not_white s b :
  trimStart s ≠ EmptyString → trimStart (s +:+ b) = trimStart s +:+ b.
Proof.
  induction s as [|c s IH]; [done|]. rewrite app_cons. cbn.
  destruct (is_white c); [apply IH | done].
Qed.

Lemma trimStart_all_white s : trimStart s = EmptyString → all_white s = true.
Proof.
  induction s as [|c s IH]; [done|]. cbn. destruct (is_white c); [done|discriminate].
Qed.

Lemma all_white_app a b : all_white a = true → all_white b = true → all_white (a +:+ b) = true.
Proof.
  induction a as [|c a IH]; [done|]. cbn [all_white]. rewrite app_cons. cbn [all_white].
  rewrite !andb_true_iff. intros [-> Ha] Hb. auto.
Qed.

Lemma trim_all_white s : all_white s = true → trim s = EmptyString.
Proof.
  intros Hs. unfold trim. rewrite <- (app_empty_r s), trimStart_white by done. done.
Qed.

(** White space around a text does not change what [trim] leaves of it. *)
Lemma trim_white a s b :
  all_white a = true → all_white b = true → trim (a +:+ s +:+ b) = trim s.
Proof.
  intros Ha Hb. unfold trim at 1. rewrite trimStart_white by done.
  destruct (trimStart s) as [|c r] eqn:Hs.
  - symmetry. rewrite (trim_all_white s) by (by apply trimStart_all_white).
    symmetry. fold (trim (s +:+ b)). apply trim_all_white.
    apply all_white_app; [by apply trimStart_all_white | done].
  - rewrite trimStart_app_not_white by (by rewrite Hs).
    rewrite trimEnd_white by done. done.
Qed.

Lemma same_ignoring_case_refl s : same_ignoring_case s s = true.
Proof. by apply same_ignoring_case_lower. Qed.

Lemma filtered_is_sublist l query : filtered l query `sublist_of` l.
Proof. unfold filtered. case (truthy _); [apply sublist_filter | done]. Qed.

Lemma filtered_elem_of l query n :
  trim query ≠ EmptyString →
  n ∈ filtered l query ↔ n ∈ l ∧ hit (trim query) n.
Proof.
  intros Hq. rewrite filtered_truthy by done.
  rewrite list_elem_of_filter, Is_true_true, matches_hit. tauto.
Qed.

Lemma contains_ignoring_case_trans s q r :
  contains_ignoring_case s q → contains_ignoring_case q r →
  contains_ignoring_case s r.
Proof.
  rewrite <- !includes_toLowerCase, !includes_spec.
  intros (a & b & ->) (a' & b' & ->).
  exists (a +:+ a'), (b' +:+ b). by rewrite !app_assoc_string.
Qed.

End search.

(** X1: with pairwise distinct ids in the collection, the items of the list
    shown for any query have pairwise distinct ids, the keys NoteList gives
    them. *)
Theorem filtered_distinct_keys (l : list Note) (query : string) :
  NoDup (ids l) → NoDup (ids (filtered l query)).
Proof.
  intros Hl. eapply sublist_NoDup; [done|].
  unfold ids. apply fmap_sublist, filtered_is_sublist.
Qed.

Lemma filtered_distinct_keys_witness :
  let l := [mkNote "a" "Milk" "" 1 1; mkNote "b" "Bread" "milk" 2 2;
            mkNote "c" "Eggs" "" 3 3] in
  NoDup (ids l) ∧ NoDup (ids (filtered l "milk")).
Proof.
  intros l. assert (H : NoDup (ids l)) by by_compute.
  split; [exact H | exact (filtered_distinct_keys l "milk" H)].
Defined.

(** X2: searching within the result of a search for the same query changes
    nothing. *)
Theorem filtered_idempotent (l : list Note) (query : string) :
  filtered (filtered l query) query = filtered l query.
Proof.
  unfold filtered. destruct (truthy _); [|done].
  by apply list_filter_filter_l.
Qed.

(** X5: a note of the collection is always in the list shown for its own
    title and in the list shown for its own content. *)
Theorem filtered_finds_own_text (l : list Note) (n : Note) :
  n ∈ l → n ∈ filtered l (title n) ∧ n ∈ filtered l (content n).
Proof.
  intros Hn.
  assert (Hself : ∀ s, contains_ignoring_case s (trim s)).
  { intros s. destruct (trim_spec s) as (a & b & Hs & _).
    exists a, (trim s), b. split; [done | apply same_ignoring_case_refl]. }
  split.
  - destruct (decide (trim (title n) = EmptyString)) as [Hq|Hq].
    + by rewrite filtered_empty.
    + apply filtered_elem_of; [done|]. split; [done|]. left. apply Hself.
  - destruct (decide (trim (content n) = EmptyString)) as [Hq|Hq].
    + by rewrite filtered_empty.
    + apply filtered_elem_of; [done|]. split; [done|]. right. apply Hself.
Qed.

Lemma filtered_finds_own_text_witness :
  let n := mkNote "a" " Shopping List " "Milk" 1 1 in
  let l := [mkNote "b" "Other" "" 2 2; n] in
  n ∈ l ∧ filtered l (title n) = [n] ∧ n ∈ filtered l (content n).
Proof.
  intros n l. assert (H : n ∈ l) by by_compute.
  split_and!; [exact H | reflexivity | exact (proj2 (filtered_finds_own_text l n H))].
Defined.

(** X6: deleting a note and searching can be done in either order. *)
Theorem filtered_deleteNote (l : list Note) (sid query : string) :
  filtered (deleteNote sid l) query = deleteNote sid (filtered l query).
Proof.
  unfold filtered, deleteNote. destruct (truthy _); [|done].
  rewrite !list_filter_filter. apply list_filter_iff. tauto.
Qed.

(** ** More on the handlers *)

Section handlers.
Implicit Types (a : App) (n p : Note) (l : list Note) (s sid : string).

Lemma selected_inv a n :
  selected a = Some n →
  selectedId a = Some (id n) ∧
  ∃ i, findIndex (id n) (notes a) = Z.of_nat i ∧ notes a !! i = Some n.
Proof.
  unfold selected. destruct (list_find _ _) as [[i m]|] eqn:Hfind; [|done].
  cbn. intros [= ->]. pose proof Hfind as (Hi & Hsel & Hbefore)%list_find_Some.
  unfold is_selected in *. split; [done|]. exists i. split; [|done].
  unfold findIndex.
  assert (Hfind' : list_find (λ m, id m = id n) (notes a) = Some (i, n)).
  { apply list_find_Some. split_and!; [done..|].
    intros j y Hj Hlt Hy. apply (Hbefore j y Hj Hlt). by rewrite Hy. }
  by rewrite Hfind'.
Qed.

Lemma selected_None a :
  selected a = None ↔ ∀ n, n ∈ notes a → selectedId a ≠ Some (id n).
Proof.
  unfold selected. rewrite fmap_None, list_find_None, Forall_forall. done.
Qed.

(** A selection that names a note of the collection shows a note. *)
Lemma selected_valid a s :
  selectedId a = Some s → s ∈ ids (notes a) →
  ∃ n, selected a = Some n ∧ id n = s.
Proof.
  intros Hs (m & -> & Hm)%list_elem_of_fmap.
  destruct (selected a) as [n|] eqn:Hsel.
  - exists n. split; [done|]. apply selected_inv in Hsel as [Hsel _]. congruence.
  - pose proof (proj1 (selected_None a) Hsel m Hm) as Hno. by destruct Hno.
Qed.

(** What [handleDelete] leaves as selection: nothing when no note remains,
    else what [|| null] makes of the id of a remaining note. *)
Lemma handleDelete_next a n :
  selected a = Some n →
  notes (handleDelete a) = deleteNote (id n) (notes a) ∧
  ((notes (handleDelete a) = [] ∧ selectedId (handleDelete a) = None) ∨
   ∃ p, p ∈ notes (handleDelete a) ∧
        selectedId (handleDelete a) = or_null (Some (id p))).
Proof.
  intros Hsel. destruct (selected_inv _ _ Hsel) as (_ & i & Hidx & Hi).
  rewrite (handleDelete_Some _ _ Hsel), Hidx. cbn [notes selectedId].
  split; [done|].
  apply findIndex_nat in Hidx as [Hlen Hbefore].
  set (rem := deleteNote (id n) (notes a)).
  assert (Hkeep : ∀ j, (j < i)%nat → rem !! j = notes a !! j).
  { intros j Hj. unfold rem, deleteNote.
    rewrite (filter_lookup_before _ _ i); [done | | lia..].
    intros k y Hk Hlt. by apply (Hbefore k y). }
  destruct rem as [|r rem'] eqn:Hrem.
  { left. split; [done | apply id_at_nil]. }
  right.
  assert (Hin : ∃ p, (r :: rem') !! Z.to_nat (Z.max 0 (Z.of_nat i - 1)) = Some p).
  { apply lookup_lt_is_Some_2. destruct i as [|i]; [cbn; lia|].
    replace (Z.to_nat (Z.max 0 (Z.of_nat (S i) - 1))) with i by lia.
    apply lookup_lt_is_Some_1. rewrite Hkeep by lia.
    apply lookup_lt_is_Some_2. lia. }
  destruct Hin as [p Hp]. exists p. split; [by eapply list_elem_of_lookup_2|].
  unfold id_at. destruct (Z.ltb_spec (Z.max 0 (Z.of_nat i - 1)) 0); [lia|].
  by rewrite Hp.
Qed.

Lemma deleteNote_shorter sid l n :
  n ∈ l → id n = sid → (length (deleteNote sid l) < length l)%nat.
Proof. intros Hn Hid. unfold deleteNote. eapply length_filter_lt; [done|]. by intros []. Qed.

Lemma or_null_Some_inv x s : or_null x = Some s → x = Some s ∧ s ≠ EmptyString.
Proof. destruct x as [[|c r]|]; cbn; [done| |done]. by intros [= <-]. Qed.

Lemma handle_valid a e : valid_selection a → valid_selection (handle a e).
Proof.
  intros Hvalid. destruct e as [now frac tick| |patch now|query k]; cbn [handle].
  - intros s. cbn. intros [= <-]. apply list_elem_of_here.
  - destruct (selected a) as [n|] eqn:Hsel.
    + destruct (handleDelete_next _ _ Hsel) as [_ [[_ Hnone]|(p & Hp & Hnext)]];
        intros s Hs; [congruence|].
      rewrite Hnext in Hs. apply or_null_Some_inv in Hs as [[= <-] _].
      by apply list_elem_of_fmap_2.
    + unfold handleDelete. by rewrite Hsel.
  - unfold handleUpdate. destruct (selected a); [|done].
    intros s. cbn [notes selectedId]. rewrite updateNote_ids. apply Hvalid.
  - unfold select_item.
    destruct (filtered (notes a) query !! k) as [n|] eqn:Hk; [|done].
    intros s. cbn. intros [= <-]. apply list_elem_of_fmap_2.
    eapply elem_of_sublist; [by eapply list_elem_of_lookup_2|].
    apply filtered_is_sublist.
Qed.

Lemma autoSelect_notes a : notes (autoSelect a) = notes a.
Proof.
  unfold autoSelect.
  destruct (notes a) eqn:Hn; destruct (or_null (selectedId a)); cbn; congruence.
Qed.

Lemma autoSelect_valid a : valid_selection a → valid_selection (autoSelect a).
Proof.
  intros Hvalid. unfold autoSelect.
  destruct (notes a) as [|n l] eqn:Hn; [done|].
  destruct (or_null (selectedId a)); [done|].
  intros s. cbn. intros [= <-]. apply list_elem_of_here.
Qed.

Lemma autoSelect_is_Some a :
  notes a ≠ [] → is_Some (selectedId (autoSelect a)).
Proof.
  intros Hne. unfold autoSelect. destruct (notes a) as [|n l]; [by destruct Hne|].
  destruct (selectedId a) as [[|c r]|] eqn:Hs; cbn; rewrite ?Hs; by eexists.
Qed.

Lemma handleCreate_next now frac tick a :
  let n := mkNote (uid frac tick) "Untitled" EmptyString now now in
  selected (handleCreate now frac tick a) = Some n ∧
  findIndex (id n) (notes (handleCreate now frac tick a)) = Z.of_nat 0.
Proof.
  intros n. split.
  - apply (selected_lookup (n :: notes a) 0 n); [done|]. intros j y _ Hj. lia.
  - unfold findIndex. cbn. by rewrite decide_True.
Qed.

End handlers.

(** X7: pressing New note selects the note just made, whatever the
    collection holds: the editor shows an Untitled note with empty
    content, and the list starts with it. *)
Theorem handleCreate_selects_new (now : Z) (frac : string) (tick : Z) (a : App) :
  let n := mkNote (uid frac tick) "Untitled" EmptyString now now in
  notes (handleCreate now frac tick a) = n :: notes a ∧
  selected (handleCreate now frac tick a) = Some n ∧
  canDelete (handleCreate now frac tick a) = true.
Proof.
  intros n. assert (Hsel : selected (handleCreate now frac tick a) = Some n).
  { apply (selected_lookup (n :: notes a) 0 n); [done|]. intros j y _ Hj. lia. }
  split_and!; [done | done |]. unfold canDelete. by rewrite Hsel.
Qed.

(** X8: typing in the editor changes the selected note and nothing of the
    selection: the note shown afterwards is the one shown before with the
    patch merged in; with no note shown, nothing changes. *)
Theorem handleUpdate_selected (patch : Patch) (now : nat → Z) (a : App) :
  (selected a = None → handleUpdate patch now a = a) ∧
  (∀ n i, selected a = Some n → findIndex (id n) (notes a) = Z.of_nat i →
     selectedId (handleUpdate patch now a) = selectedId a ∧
     selected (handleUpdate patch now a) = Some (merge n patch (now i))).
Proof.
  split.
  - intros Hsel. unfold handleUpdate. by rewrite Hsel.
  - intros n i Hsel Hidx. unfold handleUpdate. rewrite Hsel. split; [done|].
    destruct (selected_inv _ _ Hsel) as (Hid & k & Hk & Hn).
    rewrite Hidx in Hk. apply Nat2Z.inj in Hk. subst k.
    apply findIndex_nat in Hidx as [_ Hbefore].
    rewrite Hid.
    apply (selected_lookup _ i (merge n patch (now i))).
    + rewrite updateNote_lookup, Hn. cbn. by rewrite decide_True.
    + intros j y. rewrite updateNote_lookup.
      destruct (notes a !! j) as [m|] eqn:Hj; [|done]. cbn. intros [= <-] Hlt.
      pose proof (Hbefore j m Hj Hlt). by case_decide.
Qed.

Lemma handleUpdate_selected_witness :
  let n := mkNote "b" "B" "text" 2 2 in
  let a := mkApp [mkNote "a" "A" "" 1 1; n] (Some "b") in
  let a' := handleUpdate (mkPatch None (Some "more")) (λ _, 9) a in
  selected a = Some n ∧ selectedId a' = Some "b" ∧
  selected a' = Some (mkNote "b" "B" "more" 2 9).
Proof.
  intros n a a'.
  assert (Hsel : selected a = Some n) by reflexivity.
  destruct (proj2 (handleUpdate_selected (mkPatch None (Some "more")) (λ _, 9) a)
              n 1%nat Hsel eq_refl) as [H1 H2].
  split_and!; [exact Hsel | exact H1 | exact H2].
Defined.

(** X9: the Delete handler changes nothing exactly when the Delete button
    is disabled, that is when no note is shown. *)
Theorem handleDelete_noop_iff (a : App) :
  handleDelete a = a ↔ canDelete a = false.
Proof.
  unfold canDelete. destruct (selected a) as [n|] eqn:Hsel.
  - split; [|done]. intros Heq.
    destruct (handleDelete_next _ _ Hsel) as [Hnotes _].
    rewrite Heq in Hnotes.
    destruct (selected_inv _ _ Hsel) as (_ & i & _ & Hi).
    pose proof (deleteNote_shorter (id n) (notes a) n
                  (list_elem_of_lookup_2 _ _ _ Hi) eq_refl) as Hlt.
    rewrite <- Hnotes in Hlt. lia.
  - split; [done|]. intros _. unfold handleDelete. by rewrite Hsel.
Qed.

(** X10: after Delete on a shown note, no note of the collection carries its
    id any more, and the new selection, when there is one, names a note of
    the collection. *)
Theorem handleDelete_selection_valid (a : App) (n : Note) :
  selected a = Some n →
  (id n ∉ ids (notes (handleDelete a))) ∧
  (∀ s, selectedId (handleDelete a) = Some s → s ∈ ids (notes (handleDelete a))).
Proof.
  intros Hsel.
  destruct (handleDelete_next _ _ Hsel) as [Hnotes [[_ Hnone]|(p & Hp & Hnext)]].
  - split; [rewrite Hnotes; apply deleteNote_gone | congruence].
  - split; [rewrite Hnotes; apply deleteNote_gone |].
    intros s Hs. rewrite Hnext in Hs.
    apply or_null_Some_inv in Hs as [[= <-] _]. by apply list_elem_of_fmap_2.
Qed.

Lemma handleDelete_selection_valid_witness :
  let n := mkNote "b" "B" "" 2 2 in
  let a := mkApp [mkNote "c" "C" "" 3 3; n; mkNote "b" "twin" "" 1 1] (Some "b") in
  selected a = Some n ∧
  notes (handleDelete a) = [mkNote "c" "C" "" 3 3] ∧
  "b" ∉ ids (notes (handleDelete a)).
Proof.
  intros n a. assert (Hsel : selected a = Some n) by reflexivity.
  split_and!; [exact Hsel | reflexivity |].
  exact (proj1 (handleDelete_selection_valid a n Hsel)).
Defined.

(** X11: where no note has the empty string as its id, Delete on a shown
    note leaves the selection empty only if it leaves the collection
    empty. *)
Theorem handleDelete_none_iff_empty (a : App) (n : Note) :
  Forall (λ m, id m ≠ EmptyString) (notes a) → selected a = Some n →
  selectedId (handleDelete a) = None ↔ notes (handleDelete a) = [].
Proof.
  intros Hids Hsel.
  destruct (handleDelete_next _ _ Hsel) as [Hnotes [[Hnil Hnone]|(p & Hp & Hnext)]].
  - by rewrite Hnil, Hnone.
  - assert (Hid : id p ≠ EmptyString).
    { rewrite Hnotes in Hp. apply deleteNote_elem_of in Hp as [Hp _].
      by apply (proj1 (Forall_forall _ _) Hids). }
    rewrite Hnext, (or_null_Some _ Hid). split; [done|].
    intros Hnil. rewrite Hnil in Hp. by apply elem_of_nil in Hp.
Qed.

Lemma handleDelete_none_iff_empty_witness :
  let n := mkNote "b" "B" "" 2 2 in
  let a := mkApp [n] (Some "b") in
  Forall (λ m, id m ≠ EmptyString) (notes a) ∧ selected a = Some n ∧
  (selectedId (handleDelete a) = None ↔ notes (handleDelete a) = []).
Proof.
  intros n a.
  assert (Hids : Forall (λ m, id m ≠ EmptyString) (notes a)) by by_compute.
  assert (Hsel : selected a = Some n) by reflexivity.
  split_and!; [exact Hids | exact Hsel |].
  exact (handleDelete_none_iff_empty a n Hids Hsel).
Defined.

(** X12: the effect that selects the first note settles at once: run on its
    own result it changes nothing, also where the first note has the empty
    string as its id. *)
Theorem autoSelect_idempotent (a : App) : autoSelect (autoSelect a) = autoSelect a.
Proof.
  destruct a as [[|n l] [[|c r]|]]; try reflexivity;
    unfold autoSelect; cbn; by destruct (id n).
Qed.

(** X13: through any sequence of user events from the first render on any
    collection, the selection names a note of the collection or is none,
    a note is shown whenever the collection is not empty, and the selection
    is none when it is empty. *)
Theorem session_shows_a_note (evs : list event) (l : list Note) :
  let a := session evs l in
  (∀ s, selectedId a = Some s → s ∈ ids (notes a)) ∧
  (notes a ≠ [] → is_Some (selected a)) ∧
  (notes a = [] → selectedId a = None).
Proof.
  assert (Hsettled : ∀ x, valid_selection x →
            valid_selection (autoSelect x) ∧
            (notes (autoSelect x) ≠ [] → is_Some (selected (autoSelect x))) ∧
            (notes (autoSelect x) = [] → selectedId (autoSelect x) = None)).
  { intros x Hx. pose proof (autoSelect_valid _ Hx) as Hvalid.
    split_and!; [done | |].
    - rewrite autoSelect_notes. intros Hne.
      destruct (autoSelect_is_Some x Hne) as [s Hs].
      destruct (selected_valid _ _ Hs (Hvalid s Hs)) as (n & -> & _). by eexists.
    - intros Hnil. destruct (selectedId (autoSelect x)) as [s|] eqn:Hs; [|done].
      pose proof (Hvalid s Hs) as Hin. rewrite Hnil in Hin.
      by apply elem_of_nil in Hin. }
  intros a. subst a. unfold session.
  enough (Hvalid : ∀ x, valid_selection x →
            let y := foldl react (autoSelect x) evs in
            valid_selection y ∧ (notes y ≠ [] → is_Some (selected y)) ∧
            (notes y = [] → selectedId y = None)).
  { apply (Hvalid (mkApp l None)). by intros s. }
  induction evs as [|e evs IH]; intros x Hx; cbn [foldl].
  - by apply Hsettled.
  - unfold react at 2. apply IH, handle_valid. by apply Hsettled.
Qed.

(** X14: with pairwise distinct ids, the item the list marks as active is
    the note the editor shows. *)
Theorem item_active_iff_selected (a : App) (n : Note) :
  NoDup (ids (notes a)) → n ∈ notes a →
  item_active (selectedId a) n = true ↔ selected a = Some n.
Proof.
  intros Hdup Hn. unfold item_active. rewrite bool_decide_eq_true. split.
  - intros Hs. apply list_elem_of_lookup in Hn as [k Hk].
    destruct a as [l sel]. cbn in *. subst sel.
    apply (selected_lookup l k n Hk). intros j y Hj Hlt Hy.
    assert (j = k); [|lia].
    apply (NoDup_lookup _ _ _ (id n) Hdup); unfold ids;
      rewrite list_lookup_fmap; [by rewrite Hj; cbn; rewrite Hy | by rewrite Hk].
  - intros Hsel. by apply selected_inv in Hsel as [Hsel _].
Qed.

Lemma item_active_iff_selected_witness :
  let n := mkNote "b" "B" "" 2 2 in
  let a := mkApp [mkNote "c" "C" "" 3 3; n] (Some "b") in
  NoDup (ids (notes a)) ∧ n ∈ notes a ∧
  (item_active (selectedId a) n = true ↔ selected a = Some n).
Proof.
  intros n a.
  assert (Hdup : NoDup (ids (notes a))) by by_compute.
  assert (Hn : n ∈ notes a) by by_compute.
  split_and!; [exact Hdup | exact Hn | exact (item_active_iff_selected a n Hdup Hn)].
Defined.

(** X15: New note followed by Delete gives the collection back when the new
    id was carried by no note, and selects its first note, not the note
    that was selected before. *)
Theorem create_then_delete (now : Z) (frac : string) (tick : Z) (a : App) :
  uid frac tick ∉ ids (notes a) →
  let a' := handleDelete (handleCreate now frac tick a) in
  notes a' = notes a ∧
  selectedId a' = or_null (id <$> notes a !! 0%nat).
Proof.
  intros Hfresh a'. subst a'.
  destruct (handleCreate_next now frac tick a) as [Hsel Hidx].
  rewrite (handleDelete_Some _ _ Hsel), Hidx. cbn [notes selectedId id handleCreate createNote].
  assert (Hdel : deleteNote (uid frac tick)
            (mkNote (uid frac tick) "Untitled" EmptyString now now :: notes a) = notes a).
  { apply (deleteNote_middle _ []); [done | | done]. cbn. apply not_elem_of_nil. }
  cbn [notes]. by rewrite Hdel.
Qed.

Lemma create_then_delete_witness :
  let a := mkApp [mkNote "a" "A" "" 1 1; mkNote "b" "B" "" 2 2] (Some "b") in
  let a' := handleDelete (handleCreate 5 "k" 5 a) in
  (uid "k" 5 ∉ ids (notes a)) ∧ notes a' = notes a ∧ selectedId a' = Some "a".
Proof.
  intros a a'. assert (H : uid "k" 5 ∉ ids (notes a)) by by_compute.
  destruct (create_then_delete 5 "k" 5 a H) as [Hnotes Hsel].
  split_and!; [exact H | exact Hnotes | exact Hsel].
Defined.

Lemma session_shows_a_note_witness :
  let evs := [Click_new 5 "k" 5; Click_delete; Click_delete; Click_delete] in
  let a := session evs [mkNote "a" "A" "" 1 1; mkNote "b" "B" "" 2 2] in
  notes a = [] ∧ selectedId a = None.
Proof.
  intros evs a. assert (Hnil : notes a = []) by reflexivity.
  split; [exact Hnil|].
  exact (proj2 (proj2 (session_shows_a_note evs _)) Hnil).
Defined.

Lemma contains_in_empty q :
  contains_ignoring_case EmptyString q → q = EmptyString.
Proof.
  intros ([|] & [|] & [|] & H & Hsame); try discriminate. by destruct q.
Qed.

(** X24: the note New note makes is selected but not listed while the query
    is one that Untitled does not hold: the editor shows a note the list
    does not show. *)
Theorem new_note_hidden (now : Z) (frac : string) (tick : Z) (a : App)
    (query : string) :
  trim query ≠ EmptyString →
  ¬ contains_ignoring_case "Untitled" (trim query) →
  let n := mkNote (uid frac tick) "Untitled" EmptyString now now in
  selected (handleCreate now frac tick a) = Some n ∧
  n ∉ filtered (notes (handleCreate now frac tick a)) query.
Proof.
  intros Hq Hno n. split; [apply handleCreate_next|].
  rewrite filtered_elem_of by done. intros [_ [Htitle|Hcontent]]; [done|].
  by apply contains_in_empty in Hcontent.
Qed.

Lemma new_note_hidden_witness :
  let a := mkApp [mkNote "a" "Milk" "" 1 1] (Some "a") in
  let a' := handleCreate 5 "k" 5 a in
  trim "milk" ≠ EmptyString ∧ ¬ contains_ignoring_case "Untitled" (trim "milk") ∧
  selectedId a' = Some "k5" ∧ filtered (notes a') "milk" = [mkNote "a" "Milk" "" 1 1].
Proof.
  intros a a'.
  assert (Hq : trim "milk" ≠ EmptyString) by discriminate.
  assert (Hno : ¬ contains_ignoring_case "Untitled" (trim "milk")).
  { rewrite <- includes_toLowerCase. by vm_compute. }
  pose proof (new_note_hidden 5 "k" 5 a "milk" Hq Hno) as [Hsel Hout].
  split_and!; [exact Hq | exact Hno | | reflexivity].
  apply selected_inv in Hsel as [Hsel _]. exact Hsel.
Defined.

(** ** More on the store *)

Section more_store.
Implicit Types (l : list Note) (n : Note) (sid : string).

Lemma updateNote_cons sid patch now n l :
  updateNote sid patch now (n :: l) =
  (if decide (id n = sid) then merge n patch (now 0%nat) else n)
    :: updateNote sid patch (now ∘ S) l.
Proof. reflexivity. Qed.

Lemma timely_update_lookup sid now l i n :
  timely_update sid now l = true → l !! i = Some n → id n = sid →
  createdAt n ≤ now i.
Proof.
  unfold timely_update. rewrite bool_decide_eq_true, Forall_lookup.
  intros Hall Hi Hid. apply (Hall i (i, n)); [|done].
  by rewrite list_lookup_imap, Hi.
Qed.

Lemma apply_action_ordered l act :
  match act with
  | Update sid _ now => timely_update sid now l = true
  | _ => True
  end →
  Forall (λ n, createdAt n ≤ updatedAt n) l →
  Forall (λ n, createdAt n ≤ updatedAt n) (apply_action l act).
Proof.
  destruct act as [now frac tick|sid patch now|sid]; cbn; intros Hact Hl.
  - constructor; [cbn; lia | done].
  - apply Forall_lookup. intros i n. rewrite updateNote_lookup.
    destruct (l !! i) as [m|] eqn:Hi; [|done]. cbn. intros [= <-].
    case_decide as Hid.
    + cbn. by eapply timely_update_lookup.
    + by apply (Forall_lookup_1 _ _ _ _ Hl Hi).
  - apply Forall_forall. intros n [Hn _]%deleteNote_elem_of.
    by apply (proj1 (Forall_forall _ _) Hl).
Qed.

Lemma run_ordered acts l :
  timely acts l = true →
  Forall (λ n, createdAt n ≤ updatedAt n) l →
  Forall (λ n, createdAt n ≤ updatedAt n) (run acts l).
Proof.
  revert l. induction acts as [|act acts IH]; intros l; [done|].
  cbn [timely]. rewrite andb_true_iff. intros [Hact Hrest] Hl.
  apply IH; [done|]. apply apply_action_ordered; [|done].
  by destruct act.
Qed.

End more_store.

(** X16: in a collection built from nothing by creates, updates and deletes
    whose updates each read the clock at or after the creation time of the
    note they touch, every note has [updatedAt] at or after [createdAt]. *)
Theorem timestamps_ordered (acts : list action) :
  timely acts [] = true →
  Forall (λ n, createdAt n ≤ updatedAt n) (run acts []).
Proof. intros H. by apply run_ordered. Qed.

Lemma timestamps_ordered_witness :
  let acts := [Create 5 "k" 5; Create 6 "k" 6;
               Update "k5" (mkPatch (Some "X") None) (λ _, 7); Delete "k6";
               Update "k5" (mkPatch None (Some "Y")) (λ _, 7)] in
  timely acts [] = true ∧ run acts [] = [mkNote "k5" "X" "Y" 5 7] ∧
  Forall (λ n, createdAt n ≤ updatedAt n) (run acts []).
Proof.
  intros acts. assert (H : timely acts [] = true) by (vm_compute; reflexivity).
  split_and!; [exact H | reflexivity | exact (timestamps_ordered acts H)].
Defined.

(** X17: two edits of the same note in a row leave what one edit leaves
    that carries the fields of both, the later edit winning, with the later
    clock readings. *)
Theorem updateNote_twice (sid : string) (p1 p2 : Patch) (now1 now2 : nat → Z)
    (l : list Note) :
  updateNote sid p2 now2 (updateNote sid p1 now1 l) =
  updateNote sid (patch_then p1 p2) now2 l.
Proof.
  apply list_eq. intros i. rewrite !updateNote_lookup.
  destruct (l !! i) as [n|]; [cbn | done]. f_equal.
  destruct (decide (id n = sid)) as [Hn|Hn].
  - cbn. rewrite decide_True by done. unfold merge, patch_then. cbn.
    by destruct (patch_title p2), (patch_content p2).
  - by rewrite decide_False.
Qed.

(** X18: editing a note and then deleting it leaves what deleting it at
    once leaves. *)
Theorem updateNote_then_deleteNote (sid : string) (patch : Patch)
    (now : nat → Z) (l : list Note) :
  deleteNote sid (updateNote sid patch now l) = deleteNote sid l.
Proof.
  revert now. induction l as [|n l IH]; intros now; [done|].
  rewrite updateNote_cons. unfold deleteNote in *. rewrite !filter_cons.
  destruct (decide (id n = sid)) as [Hn|Hn].
  - cbn. rewrite !decide_False by (by intros []). apply IH.
  - rewrite !decide_True by done. f_equal. apply IH.
Qed.

(** ** More on ids *)

Section more_ids.
Implicit Types (a b : string) (n d base : N).

Lemma digits_head base fuel n acc :
  (0 < base)%N →
  ∃ d r, Radix.digits base fuel n acc = String (Radix.digit d) r ∧ (d < base)%N.
Proof.
  intros Hbase. revert n acc.
  induction fuel as [|fuel IH]; intros n acc; cbn [Radix.digits].
  - eexists _, _. split; [done|]. apply N.mod_lt. lia.
  - destruct (n / base =? 0)%N; [|apply IH].
    eexists _, _. split; [done|]. apply N.mod_lt. lia.
Qed.

Lemma digit_not_minus d : (d < 36)%N → Radix.digit d ≠ "-"%char.
Proof.
  intros Hd Heq. apply (f_equal N_of_ascii) in Heq. revert Heq.
  unfold Radix.digit. destruct (N.ltb_spec d 10);
    rewrite N_ascii_embedding by lia; cbn; lia.
Qed.

Lemma of_N_inj base n1 n2 :
  (2 ≤ base ≤ 36)%N → Radix.of_N base n1 = Radix.of_N base n2 → n1 = n2.
Proof.
  intros Hbase Heq. rewrite <- (value_of_N base n1), <- (value_of_N base n2) by done.
  by rewrite Heq.
Qed.

Lemma to_string_inj base z1 z2 :
  (2 ≤ base ≤ 36)%N → Radix.to_string base z1 = Radix.to_string base z2 → z1 = z2.
Proof.
  intros Hbase. unfold Radix.to_string.
  assert (Hhead : ∀ n r, Radix.of_N base n ≠ String "-"%char r).
  { intros n r Heq. unfold Radix.of_N in Heq.
    destruct (digits_head base (N.size_nat n) n EmptyString) as (d & r' & Hd & Hlt);
      [lia|].
    rewrite Hd in Heq. injection Heq as Heq _. apply (digit_not_minus d); [lia | done]. }
  destruct (Z.ltb_spec z1 0), (Z.ltb_spec z2 0); intros Heq.
  - injection Heq as Heq. apply of_N_inj in Heq; [lia | done].
  - symmetry in Heq. by apply Hhead in Heq.
  - by apply Hhead in Heq.
  - apply of_N_inj in Heq; [lia | done].
Qed.

Lemma app_inj_length a1 a2 b1 b2 :
  String.length a1 = String.length a2 → a1 +:+ b1 = a2 +:+ b2 →
  a1 = a2 ∧ b1 = b2.
Proof.
  revert a2. induction a1 as [|c a1 IH]; intros [|d a2]; cbn; try done.
  intros [= Hlen]. rewrite !app_cons. intros [= -> Heq].
  destruct (IH _ Hlen Heq) as [-> ->]. done.
Qed.

End more_ids.

(** X19: two ids made from draws that print with the same number of digits
    differ as soon as the draws differ or the clock readings differ. *)
Theorem uid_distinct (frac1 frac2 : string) (tick1 tick2 : Z) :
  String.length frac1 = String.length frac2 →
  frac1 ≠ frac2 ∨ tick1 ≠ tick2 → uid frac1 tick1 ≠ uid frac2 tick2.
Proof.
  intros Hlen Hne Heq. unfold uid in Heq.
  destruct (app_inj_length _ _ _ _ Hlen Heq) as [Hfrac Htick].
  apply (to_string_inj 36) in Htick; [|lia]. by destruct Hne.
Qed.

Lemma uid_distinct_witness :
  String.length "0f3k" = String.length "9zzq" ∧
  ("0f3k" ≠ "9zzq" ∨ 1762113600000 ≠ 1762113600001) ∧
  uid "0f3k" 1762113600000 ≠ uid "9zzq" 1762113600001 ∧
  uid "0f3k" 1762113600000 = "0f3kmhi4xvk0".
Proof.
  assert (Hlen : String.length "0f3k" = String.length "9zzq") by reflexivity.
  assert (Hne : "0f3k" ≠ "9zzq" ∨ 1762113600000 ≠ 1762113600001)
    by (right; discriminate).
  split_and!; [exact Hlen | exact Hne | | reflexivity].
  exact (uid_distinct "0f3k" "9zzq" 1762113600000 1762113600001 Hlen Hne).
Defined.

(** ** JSON.parse reads what JSON.stringify writes *)

Section roundtrip.
Implicit Types (v : json) (stack : list frame) (rest t : list N).

Lemma units_cons (x : ascii) (s : string) :
  units (String x s) = N_of_ascii x :: units s.
Proof. reflexivity. Qed.

Lemma units_app (a b : string) : units (a +:+ b) = units a ++ units b.
Proof.
  induction a as [|x a IH]; [done|]. by rewrite app_cons, !units_cons, IH.
Qed.

(** *** Numbers *)

Lemma of_N_bound base n :
  (2 ≤ base)%N → (n < base ^ N.of_nat (S (N.size_nat n)))%N.
Proof.
  intros Hbase. eapply N.lt_le_trans; [apply size_nat_bound|].
  rewrite Nat2N.inj_succ, N.pow_succ_r'.
  etrans; [apply (N.pow_le_mono_l 2 base); lia|].
  assert (0 < base ^ N.of_nat (N.size_nat n))%N
    by (apply N.neq_0_lt_0, N.pow_nonzero; lia).
  nia.
Qed.

Lemma digit_code d : (d < 10)%N → N_of_ascii (Radix.digit d) = (48 + d)%N.
Proof.
  intros Hd. unfold Radix.digit. destruct (N.ltb_spec d 10); [|lia].
  by rewrite N_ascii_embedding by lia.
Qed.

Lemma is_digit_code d : (d < 10)%N → is_digit (48 + d) = true.
Proof.
  intros Hd. unfold is_digit. apply andb_true_iff.
  split; apply N.leb_le; lia.
Qed.

(** The shape of what the digit loop writes in base 10: decimal digits, no
    zero in front but for 0 itself, with the number as their value. *)
Lemma digits_decimal fuel n acc :
  (n < 10 ^ N.of_nat (S fuel))%N →
  ∃ c tl, Radix.digits 10 fuel n acc = String c (tl +:+ acc) ∧
          Forall (λ x, is_digit x = true) (units (String c tl)) ∧
          (n ≠ 0%N → N_of_ascii c ≠ 48%N) ∧ (n = 0%N → tl = EmptyString) ∧
          read_decimal 0 (units (String c tl)) = n.
Proof.
  assert (Hone : ∀ m a, (m < 10)%N →
    ∃ c tl, String (Radix.digit (m mod 10)) a = String c (tl +:+ a) ∧
            Forall (λ x, is_digit x = true) (units (String c tl)) ∧
            (m ≠ 0%N → N_of_ascii c ≠ 48%N) ∧ (m = 0%N → tl = EmptyString) ∧
            read_decimal 0 (units (String c tl)) = m).
  { intros m a Hm. exists (Radix.digit (m mod 10)), EmptyString.
    rewrite N.mod_small by done. rewrite units_cons, digit_code by done.
    split_and!; [done | | lia | done | cbn; lia].
    constructor; [by apply is_digit_code | constructor]. }
  revert n acc. induction fuel as [|fuel IH]; intros n acc Hn.
  - cbn [Radix.digits]. apply Hone. by rewrite N.pow_1_r in Hn.
  - cbn [Radix.digits]. destruct (N.eqb_spec (n / 10) 0) as [Hq|Hq].
    + apply Hone. by apply N.div_small_iff in Hq.
    + destruct (IH (n / 10)%N (String (Radix.digit (n mod 10)) acc))
        as (c & tl & Hds & Hall & Hhead & _ & Hval).
      { apply N.Div0.div_lt_upper_bound.
        by rewrite Nat2N.inj_succ, N.pow_succ_r' in Hn. }
      exists c, (tl +:+ String (Radix.digit (n mod 10)) EmptyString).
      assert (Hlast : (n mod 10 < 10)%N) by (apply N.mod_lt; lia).
      split_and!.
      * by rewrite Hds, app_assoc_string.
      * rewrite units_cons, units_app, units_cons, app_comm_cons.
        apply Forall_app. split; [by rewrite <- units_cons|].
        rewrite digit_code by done.
        constructor; [by apply is_digit_code | constructor].
      * intros _. apply Hhead, Hq.
      * intros ->. by destruct Hq.
      * rewrite units_cons, units_app, app_comm_cons, <- units_cons.
        unfold read_decimal in *. rewrite foldl_app, Hval. cbn.
        rewrite digit_code by done.
        rewrite (N.add_comm 48), N.add_sub.
        symmetry. apply N.div_mod. lia.
Qed.

Lemma decimal_text n :
  ∃ (c : N) tl, units (Radix.of_N 10 n) = c :: tl ∧
          Forall (λ x, is_digit x = true) (c :: tl) ∧
          (n ≠ 0%N → c ≠ 48%N) ∧ (n = 0%N → tl = []) ∧
          read_decimal 0 (c :: tl) = n.
Proof.
  destruct (digits_decimal (N.size_nat n) n EmptyString)
    as (c & tl & Hds & Hall & Hhead & Hzero & Hval).
  { apply of_N_bound. lia. }
  exists (N_of_ascii c), (units tl). unfold Radix.of_N.
  rewrite Hds, app_empty_r. split_and!; try done.
  intros Hn. by rewrite (Hzero Hn).
Qed.

Lemma consume_int (n : num) ds stack rest :
  Forall (λ x, is_digit x = true) ds →
  consume (Num NInt n, stack) (ds ++ rest) =
  consume (Num NInt (with_digits n (read_decimal (num_digits n) ds)), stack) rest.
Proof.
  intros Hds. revert n. induction Hds as [|c ds Hc _ IH]; intros n.
  - by destruct n.
  - cbn [app consume step step_number]. rewrite Hc. cbn [mbind option_bind].
    rewrite IH. by destruct n.
Qed.

Lemma consume_exp (n : num) ds stack rest :
  Forall (λ x, is_digit x = true) ds →
  consume (Num NExp n, stack) (ds ++ rest) =
  consume (Num NExp (with_exp n (read_decimal (num_exp n) ds)), stack) rest.
Proof.
  intros Hds. revert n. induction Hds as [|c ds Hc _ IH]; intros n.
  - by destruct n.
  - cbn [app consume step step_number]. rewrite Hc. cbn [mbind option_bind].
    rewrite IH. by destruct n.
Qed.

Lemma is_digit_range (c : N) : is_digit c = true → (48 ≤ c ≤ 57)%N.
Proof.
  unfold is_digit. rewrite andb_true_iff, !N.leb_le. tauto.
Qed.

Lemma ends_value_cons (c : N) rest :
  ends_value (c :: rest) = true →
  is_digit c = false ∧ (c =? 46)%N = false ∧ is_exp_mark c = false.
Proof.
  cbn. rewrite negb_true_iff, !orb_false_iff. tauto.
Qed.

(** A whole number literal followed by what may follow a value is that
    value. *)
Lemma consume_number_end st (n : num) stack rest :
  num_final st = true → ends_value rest = true →
  consume (Num st n, stack) rest =
  complete (num_value n) stack ≫= λ s, consume s rest.
Proof.
  intros Hfinal Hrest. destruct rest as [|c rest].
  - cbn [consume finish]. rewrite Hfinal.
    by destruct stack as [|[items|members [k|]] stack].
  - apply ends_value_cons in Hrest as (Hd & Hdot & Hexp).
    cbn [consume step].
    assert (Hstep : step_number st n stack c = end_number st n stack c).
    { destruct st; try discriminate; cbn [step_number]; by rewrite ?Hd, ?Hdot, ?Hexp. }
    rewrite Hstep. unfold end_number. rewrite Hfinal.
    by destruct stack as [|[items|members [k|]] stack].
Qed.

Lemma step_value_digit b stack (c : N) :
  is_digit c = true → c ≠ 48%N →
  step_value b stack c = Some (Num NInt (mkNum false (c - 48) 0 false 0), stack).
Proof.
  intros Hc%is_digit_range Hne.
  assert (c = 49 ∨ c = 50 ∨ c = 51 ∨ c = 52 ∨ c = 53 ∨ c = 54 ∨ c = 55
          ∨ c = 56 ∨ c = 57)%N as Hcases by lia.
  by repeat (destruct Hcases as [->|Hcases]); [..|subst c].
Qed.

(** The digits of a natural, read from the start of a value. *)
Lemma consume_natural n b stack t :
  consume (Value b, stack) (units (Radix.of_N 10 n) ++ t) =
  consume (Num (if (n =? 0)%N then NZero else NInt) (mkNum false n 0 false 0),
           stack) t.
Proof.
  destruct (decimal_text n) as (c & tl & -> & Hall & Hhead & Hzero & Hval).
  apply Forall_cons in Hall as [Hc Htl].
  destruct (N.eqb_spec n 0) as [Hn|Hn].
  - rewrite (Hzero Hn) in *. rewrite Hn in Hval |- *. cbn in Hval.
    apply is_digit_range in Hc. assert (c = 48%N) as -> by lia. reflexivity.
  - cbn [app consume step]. rewrite step_value_digit by auto.
    cbn [mbind option_bind]. rewrite consume_int by done.
    cbn. unfold with_digits. cbn. do 3 f_equal.
    rewrite <- Hval. unfold read_decimal. cbn. by rewrite N.mul_0_r, N.add_0_l.
Qed.

(** The digits of a natural that is not zero, read after a minus sign. *)
Lemma consume_negative n stack t :
  n ≠ 0%N →
  consume (Num NMinus (mkNum true 0 0 false 0), stack)
          (units (Radix.of_N 10 n) ++ t) =
  consume (Num NInt (mkNum true n 0 false 0), stack) t.
Proof.
  intros Hn.
  destruct (decimal_text n) as (c & tl & -> & Hall & Hhead & _ & Hval).
  apply Forall_cons in Hall as [Hc Htl].
  cbn [app consume step step_number].
  destruct (N.eqb_spec c 48) as [Hc48|_]; [by destruct (Hhead Hn)|].
  rewrite Hc. cbn [mbind option_bind]. rewrite consume_int by done.
  unfold with_digits, add_digit. cbn. do 3 f_equal.
  rewrite <- Hval. unfold read_decimal. cbn. by rewrite N.mul_0_r, N.add_0_l.
Qed.

(** The digits of an exponent, read after the exponent mark or its sign. *)
Lemma consume_exponent_digits st (n0 : num) n stack t :
  st = NExpMark ∨ st = NExpSign → num_exp n0 = 0%N →
  consume (Num st n0, stack) (units (Radix.of_N 10 n) ++ t) =
  consume (Num NExp (with_exp n0 n), stack) t.
Proof.
  intros Hst Hexp.
  destruct (decimal_text n) as (c & tl & -> & Hall & _ & _ & Hval).
  apply Forall_cons in Hall as [Hc Htl].
  pose proof (is_digit_range _ Hc) as Hrange.
  assert (Hstep : step (Num st n0, stack) c = Some (Num NExp (add_exp_digit n0 c), stack)).
  { destruct Hst as [-> | ->]; cbn [step step_number].
    - destruct (N.eqb_spec c 43); [lia|]. destruct (N.eqb_spec c 45); [lia|].
      by rewrite Hc.
    - by rewrite Hc. }
  cbn [app consume]. rewrite Hstep. cbn [mbind option_bind].
  rewrite consume_exp by done.
  unfold with_exp, add_exp_digit. cbn. do 3 f_equal.
  rewrite <- Hval, Hexp. unfold read_decimal. cbn. by rewrite N.mul_0_r, N.add_0_l.
Qed.

Lemma signed_abs (z : Z) :
  (if z <? 0 then - Z.of_N (Z.abs_N z) else Z.of_N (Z.abs_N z)) = z.
Proof. rewrite N2Z.inj_abs_N. destruct (Z.ltb_spec z 0); lia. Qed.

(** The mantissa of a number text, read from the start of a value. *)
Lemma consume_mantissa (m : Z) b stack t :
  consume (Value b, stack) (units (Radix.to_string 10 m) ++ t) =
  consume (Num (if m =? 0 then NZero else NInt)
               (mkNum (m <? 0) (Z.abs_N m) 0 false 0), stack) t.
Proof.
  unfold Radix.to_string. destruct (Z.ltb_spec m 0) as [Hneg|Hpos].
  - rewrite units_cons. cbn [app consume].
    change (step (Value b, stack) (N_of_ascii "-"))
      with (Some (Num NMinus (mkNum true 0 0 false 0), stack)).
    cbn [mbind option_bind]. rewrite consume_negative by lia.
    by destruct (Z.eqb_spec m 0); [lia|].
  - rewrite consume_natural.
    destruct (Z.eqb_spec m 0) as [->|Hm]; [done|].
    by destruct (N.eqb_spec (Z.abs_N m) 0); [lia|].
Qed.

(** The exponent part of a number text, read after the mantissa. *)
Lemma consume_exponent st (n0 : num) (e : Z) stack rest :
  st = NZero ∨ st = NInt → num_exp n0 = 0%N → num_eneg n0 = false → e ≠ 0 →
  ends_value rest = true →
  consume (Num st n0, stack)
          (101%N :: units (Radix.to_string 10 e) ++ rest) =
  complete (num_value (mkNum (num_neg n0) (num_digits n0) (num_scale n0)
                             (e <? 0) (Z.abs_N e))) stack
  ≫= λ s, consume s rest.
Proof.
  intros Hst Hexp Heneg He Hrest.
  assert (Hmark : step (Num st n0, stack) 101%N = Some (Num NExpMark n0, stack))
    by (by destruct Hst as [-> | ->]).
  cbn [consume]. rewrite Hmark. cbn [mbind option_bind].
  unfold Radix.to_string. destruct (Z.ltb_spec e 0) as [Hneg|Hpos].
  - rewrite units_cons. cbn [app consume].
    change (step (Num NExpMark n0, stack) (N_of_ascii "-"))
      with (Some (Num NExpSign (set_exp_sign n0 true), stack)).
    cbn [mbind option_bind].
    rewrite consume_exponent_digits; [|by right | done].
    by rewrite consume_number_end.
  - rewrite consume_exponent_digits; [|by left | done].
    rewrite consume_number_end by done.
    unfold with_exp. by rewrite Heneg.
Qed.

(** A number text is read as its number. *)
Lemma consume_number_text (m e : Z) b stack rest :
  ends_value rest = true →
  consume (Value b, stack) (number_text m e ++ rest) =
  complete (JNum m e) stack ≫= λ s, consume s rest.
Proof.
  intros Hrest. unfold number_text. rewrite <- app_assoc, consume_mantissa.
  assert (Hst : (if m =? 0 then NZero else NInt) = NZero
              ∨ (if m =? 0 then NZero else NInt) = NInt)
    by (destruct (m =? 0); auto).
  destruct (Z.eqb_spec e 0) as [->|He].
  - cbn [app]. rewrite consume_number_end; [|by destruct Hst as [-> | ->] | done].
    unfold num_value. cbn. by rewrite signed_abs.
  - cbn [app]. rewrite consume_exponent by done.
    unfold num_value. cbn. by rewrite !signed_abs, Z.sub_0_r.
Qed.

(** *** Strings *)

Lemma unicode_escape_decode (c : N) :
  (c < 32 ∨ 55296 ≤ c < 57344)%N → decode_escape (unicode_escape c) = Some c.
Proof.
  intros Hc.
  assert (Hall : forallb (λ x, bool_decide (decode_escape (unicode_escape x) = Some x))
                   ((N.of_nat <$> seq 0 32)
                    ++ ((λ k, 55296 + N.of_nat k)%N <$> seq 0 2048)) = true)
    by (vm_compute; reflexivity).
  rewrite forallb_forall in Hall.
  eapply bool_decide_eq_true_1, Hall, list_elem_of_In, elem_of_app.
  destruct Hc as [Hc|Hc]; [left | right]; apply list_elem_of_fmap.
  - exists (N.to_nat c). split; [by rewrite N2Nat.id|]. apply elem_of_seq. lia.
  - exists (N.to_nat (c - 55296)). split; [lia|]. apply elem_of_seq. lia.
Qed.

(** An escape with four digits is read as the unit it names. *)
Lemma consume_escape k rev stack rest (c : N) :
  (c < 32 ∨ 55296 ≤ c < 57344)%N →
  consume (Str k rev, stack) (unicode_escape c ++ rest) =
  consume (Str k (c :: rev), stack) rest.
Proof.
  intros Hdec%unicode_escape_decode. revert Hdec. unfold unicode_escape.
  cbn [app]. generalize (replicate (4 - String.length (Radix.of_N 16 c)) 48%N
                         ++ units (Radix.of_N 16 c)).
  intros [|h1 [|h2 [|h3 [|h4 [|x u]]]]]; try discriminate. cbn [decode_escape].
  destruct (hex_value h1) as [d1|] eqn:H1; [|discriminate].
  destruct (hex_value h2) as [d2|] eqn:H2; [|discriminate].
  destruct (hex_value h3) as [d3|] eqn:H3; [|discriminate].
  destruct (hex_value h4) as [d4|] eqn:H4; [|discriminate].
  cbn [mbind option_bind]. intros [= <-].
  cbn [app consume]. cbn [step step_string N.eqb Pos.eqb mbind option_bind].
  cbn [step step_escape mbind option_bind].
  unfold step_hex at 1. rewrite H1. cbn [mbind option_bind step].
  unfold step_hex at 1. rewrite H2. cbn [mbind option_bind step].
  unfold step_hex at 1. rewrite H3. cbn [mbind option_bind step].
  unfold step_hex at 1. rewrite H4. reflexivity.
Qed.

Lemma step_string_raw k rev stack (c : N) :
  c ≠ 34%N → c ≠ 92%N → (32 ≤ c)%N →
  step (Str k rev, stack) c = Some (Str k (c :: rev), stack).
Proof.
  intros H34 H92 H32. cbn [step]. unfold step_string.
  destruct (N.eqb_spec c 34); [done|]. destruct (N.eqb_spec c 92); [done|].
  by destruct (N.ltb_spec c 32); [lia|].
Qed.

(** [quote_unit] as a chain of tests. *)
Lemma quote_unit_cases (c : N) :
  quote_unit c =
  if (c =? 34)%N then [92; 34]%N else if (c =? 92)%N then [92; 92]%N
  else if (c =? 8)%N then [92; 98]%N else if (c =? 12)%N then [92; 102]%N
  else if (c =? 10)%N then [92; 110]%N else if (c =? 13)%N then [92; 114]%N
  else if (c =? 9)%N then [92; 116]%N
  else if (c <? 32)%N then unicode_escape c else [c].
Proof.
  destruct c as [|p]; [reflexivity|].
  do 7 (destruct p as [p|p|]; try reflexivity).
Qed.

Lemma consume_quote_unit k rev stack rest (c : N) :
  consume (Str k rev, stack) (quote_unit c ++ rest) =
  consume (Str k (c :: rev), stack) rest.
Proof.
  rewrite quote_unit_cases.
  repeat (match goal with
          | |- context [(c =? ?x)%N] =>
              destruct (N.eqb_spec c x) as [->|?]; [reflexivity|]
          end).
  destruct (N.ltb_spec c 32).
  - apply consume_escape. lia.
  - cbn [app consume]. by rewrite step_string_raw.
Qed.

Lemma high_surrogate_range (c : N) :
  is_high_surrogate c = true → (55296 ≤ c ≤ 56319)%N.
Proof. unfold is_high_surrogate. rewrite andb_true_iff, !N.leb_le. tauto. Qed.

Lemma low_surrogate_range (c : N) :
  is_low_surrogate c = true → (56320 ≤ c ≤ 57343)%N.
Proof. unfold is_low_surrogate. rewrite andb_true_iff, !N.leb_le. tauto. Qed.

(** The units written between the quotes are read back as they were. *)
Lemma consume_quote_units (s : list N) k rev stack rest :
  consume (Str k rev, stack) (quote_units s ++ rest) =
  consume (Str k (reverse s ++ rev), stack) rest.
Proof.
  remember (length s) as len eqn:Hlen.
  assert (Hle : (length s ≤ len)%nat) by lia. clear Hlen.
  revert s rev Hle. induction len as [|len IH]; intros s rev Hle.
  { destruct s; [done | cbn in Hle; lia]. }
  destruct s as [|c r]; [done|]. cbn [length] in Hle.
  rewrite reverse_cons, <- app_assoc. cbn [app quote_units].
  destruct (is_high_surrogate c) eqn:Hhigh.
  - apply high_surrogate_range in Hhigh.
    destruct r as [|d r'].
    + rewrite consume_escape by lia. done.
    + destruct (is_low_surrogate d) eqn:Hlow.
      * apply low_surrogate_range in Hlow.
        cbn [app consume]. rewrite step_string_raw by lia.
        cbn [mbind option_bind]. rewrite step_string_raw by lia.
        cbn [mbind option_bind]. rewrite IH by (cbn in Hle; lia).
        by rewrite reverse_cons, <- app_assoc.
      * rewrite <- app_assoc, consume_escape by lia.
        by rewrite IH by lia.
  - destruct (is_low_surrogate c) eqn:Hlow.
    + apply low_surrogate_range in Hlow.
      rewrite <- app_assoc, consume_escape by lia. by rewrite IH by lia.
    + rewrite <- app_assoc, consume_quote_unit. by rewrite IH by lia.
Qed.

(** A quoted string is read as a string value. *)
Lemma consume_string (s : list N) b stack rest :
  consume (Value b, stack) (quote s ++ rest) =
  complete (JStr s) stack ≫= λ st, consume st rest.
Proof.
  unfold quote. rewrite <- !app_assoc. cbn [app consume].
  change (step (Value b, stack) 34%N) with (Some (Str false [], stack)).
  cbn [mbind option_bind]. rewrite consume_quote_units, app_nil_r.
  cbn [app consume step step_string N.eqb Pos.eqb]. by rewrite reverse_involutive.
Qed.

(** A quoted string is read as the name of a member. *)
Lemma consume_name (s : list N) b members stack rest :
  consume (Key b, InObj members None :: stack) (quote s ++ rest) =
  consume (Colon, InObj members (Some s) :: stack) rest.
Proof.
  unfold quote. rewrite <- !app_assoc. cbn [app consume].
  change (step (Key b, InObj members None :: stack) 34%N)
    with (Some (Str true [], InObj members None :: stack)).
  cbn [mbind option_bind]. rewrite consume_quote_units, app_nil_r.
  cbn [app consume step step_string N.eqb Pos.eqb mbind option_bind].
  by rewrite reverse_involutive.
Qed.

(** *** Values *)

(** Induction on a JSON value, with the property at hand for the items of an
    array and for the values of the members of an object. *)
Lemma json_nested_ind (P : json → Prop) :
  P JNull → (∀ b, P (JBool b)) → (∀ m e, P (JNum m e)) → (∀ s, P (JStr s)) →
  (∀ items, Forall P items → P (JArr items)) →
  (∀ members, Forall (λ kv, P (snd kv)) members → P (JObj members)) →
  ∀ v, P v.
Proof.
  intros Hnull Hbool Hnum Hstr Harr Hobj. fix IH 1.
  intros [ |b|m e|s|items|members]; [done..| |].
  - apply Harr. induction items as [|v items IHitems]; constructor;
      [apply IH | apply IHitems].
  - apply Hobj. induction members as [|[k v] members IHmembers]; constructor;
      [apply IH | apply IHmembers].
Qed.

Lemma stringify_arr items :
  JSON_stringify (JArr items) =
  [91%N] ++ join [44%N] (map JSON_stringify items) ++ [93%N].
Proof. reflexivity. Qed.

Lemma stringify_obj members :
  JSON_stringify (JObj members) =
  [123%N] ++ join [44%N] (map member_text members) ++ [125%N].
Proof. reflexivity. Qed.

Lemma join_cons_cons sep (p q : list N) parts :
  join sep (p :: q :: parts) = p ++ sep ++ join sep (q :: parts).
Proof. reflexivity. Qed.

Lemma step_close_arr items stack :
  step (After, InArr items :: stack) 93%N = complete (JArr (reverse items)) stack.
Proof. reflexivity. Qed.

Lemma step_comma_arr items stack :
  step (After, InArr items :: stack) 44%N = Some (Value false, InArr items :: stack).
Proof. reflexivity. Qed.

Lemma step_close_obj members stack :
  step (After, InObj members None :: stack) 125%N =
  complete (JObj (reverse members)) stack.
Proof. reflexivity. Qed.

Lemma step_comma_obj members stack :
  step (After, InObj members None :: stack) 44%N =
  Some (Key false, InObj members None :: stack).
Proof. reflexivity. Qed.

Lemma step_colon members k stack :
  step (Colon, InObj members (Some k) :: stack) 58%N =
  Some (Value false, InObj members (Some k) :: stack).
Proof. reflexivity. Qed.

Lemma consume_items items :
  Forall reads_back items →
  ∀ v0 acc b stack rest, reads_back v0 →
    consume (Value b, InArr acc :: stack)
            (join [44%N] (map JSON_stringify (v0 :: items)) ++ 93%N :: rest) =
    complete (JArr (reverse acc ++ v0 :: items)) stack ≫= λ st, consume st rest.
Proof.
  induction 1 as [|v1 items Hv1 _ IH]; intros v0 acc b stack rest Hv0.
  - cbn [map join]. rewrite Hv0 by done.
    cbn [complete mbind option_bind consume]. rewrite step_close_arr.
    by rewrite reverse_cons.
  - cbn [map]. rewrite join_cons_cons, <- !app_assoc, Hv0 by done.
    cbn [complete mbind option_bind app consume]. rewrite step_comma_arr.
    cbn [mbind option_bind].
    pose proof (IH v1 (v0 :: acc) false stack rest Hv1) as IH'.
    cbn [map] in IH'. rewrite IH'.
    by rewrite reverse_cons, <- app_assoc.
Qed.

Lemma consume_members members :
  Forall (λ kv, reads_back (snd kv)) members →
  ∀ kv0 acc b stack rest, reads_back (snd kv0) →
    consume (Key b, InObj acc None :: stack)
            (join [44%N] (map member_text (kv0 :: members)) ++ 125%N :: rest) =
    complete (JObj (reverse acc ++ kv0 :: members)) stack
    ≫= λ st, consume st rest.
Proof.
  induction 1 as [|kv1 members Hkv1 _ IH]; intros [k v] acc b stack rest Hv;
    cbn [snd] in Hv.
  - cbn [map join]. unfold member_text at 1. cbn [fst snd].
    rewrite <- !app_assoc, consume_name. cbn [app consume].
    rewrite step_colon. cbn [mbind option_bind]. rewrite Hv by done.
    cbn [complete mbind option_bind consume]. rewrite step_close_obj.
    by rewrite reverse_cons.
  - cbn [map]. rewrite join_cons_cons. unfold member_text at 1. cbn [fst snd].
    rewrite <- !app_assoc, consume_name. cbn [app consume].
    rewrite step_colon. cbn [mbind option_bind]. rewrite Hv by done.
    cbn [complete mbind option_bind app consume]. rewrite step_comma_obj.
    cbn [mbind option_bind].
    pose proof (IH kv1 ((k, v) :: acc) false stack rest Hkv1) as IH'.
    cbn [map] in IH'. rewrite IH'.
    by rewrite reverse_cons, <- app_assoc.
Qed.

Lemma stringify_reads_back v : reads_back v.
Proof.
  induction v as [ |b0|m e|s|items IH|members IH] using json_nested_ind;
    intros b stack rest Hrest.
  - reflexivity.
  - by destruct b0.
  - by apply consume_number_text.
  - apply consume_string.
  - rewrite stringify_arr, <- !app_assoc. cbn [app consume].
    change (step (Value b, stack) 91%N)
      with (Some (Value true, InArr [] :: stack)).
    cbn [mbind option_bind]. destruct IH as [|v0 items Hv0 Hitems]; [done|].
    by rewrite (consume_items items Hitems v0 [] true stack rest Hv0).
  - rewrite stringify_obj, <- !app_assoc. cbn [app consume].
    change (step (Value b, stack) 123%N)
      with (Some (Key true, InObj [] None :: stack)).
    cbn [mbind option_bind]. destruct IH as [|kv0 members Hkv0 Hmembers]; [done|].
    by rewrite (consume_members members Hmembers kv0 [] true stack rest Hkv0).
Qed.

Lemma JSON_parse_stringify v : JSON_parse (JSON_stringify v) = Some v.
Proof.
  unfold JSON_parse. rewrite <- (app_nil_r (JSON_stringify v)).
  by rewrite stringify_reads_back.
Qed.

Lemma units_not_nil (s : string) : s ≠ EmptyString → units s ≠ [].
Proof. by destruct s. Qed.

Lemma stringify_not_nil v : JSON_stringify v ≠ [].
Proof.
  destruct v as [ |[|]|m e|s|items|members]; try done.
  change (JSON_stringify (JNum m e)) with (number_text m e). unfold number_text.
  intros [Hm _]%app_eq_nil. revert Hm. apply units_not_nil, to_string_not_empty.
Qed.

End roundtrip.

(** ** More on the persistence hook *)

Section more_persistence.
Implicit Types (key text : list N) (st : Storage) (v : json).

(** A write that succeeds puts the text under the key and touches nothing
    else. *)
Lemma setItem_Normal key text st :
  fst (setItem key text st) = Normal () →
  available st = true ∧
  snd (setItem key text st) =
  mkStorage true (quota st) (<[key := text]> (items st)).
Proof.
  unfold setItem. destruct (available st) eqn:Ha; [|done].
  by case_decide.
Qed.

Lemma save_storage key v st :
  snd (save key v st) = snd (setItem key (JSON_stringify v) st).
Proof.
  rewrite save_unfold. by destruct (setItem _ _ st) as [[[]|e] st'].
Qed.

Lemma setItem_cases key text st :
  snd (setItem key text st) = st ∨
  (available st = true ∧
   snd (setItem key text st) = mkStorage true (quota st) (<[key := text]> (items st)) ∧
   (footprint (<[key := text]> (items st)) ≤ quota st)%nat).
Proof.
  unfold setItem. destruct (available st) eqn:Ha; [|by left].
  case_decide; [by right | by left].
Qed.

End more_persistence.

(** X20: a value the app keeps in a cell, a collection of notes with the
    timestamps the clock gives or a text, once saved under a key by a write
    that succeeds, is the value [load] returns for that key afterwards,
    whatever the default. *)
Theorem load_after_save_app_value (key : list N) (v d : json) (st : Storage) :
  app_value v →
  fst (setItem key (JSON_stringify v) st) = Normal () →
  JSON_parse (JSON_stringify v) = Some v ∧
  fst (load key d (snd (save key v st))) = Normal v.
Proof.
  intros _ Hok. split; [apply JSON_parse_stringify|].
  destruct (setItem_Normal _ _ _ Hok) as [Ha Hst].
  rewrite save_storage, Hst, load_unfold. cbn [available items].
  rewrite lookup_insert_eq.
  destruct (JSON_stringify v) as [|c text] eqn:Htext;
    [by destruct (stringify_not_nil v)|].
  by rewrite <- Htext, JSON_parse_stringify.
Qed.

Lemma load_after_save_app_value_witness :
  let l := [mkNote "k5" "Groceries" "Milk" 1700000000005 1700000000009] in
  let st := mkStorage true 1000 ∅ in
  app_value (json_of_notes l) ∧
  fst (setItem STORAGE_KEY (JSON_stringify (json_of_notes l)) st) = Normal () ∧
  fst (load STORAGE_KEY (JArr []) (snd (save STORAGE_KEY (json_of_notes l) st)))
  = Normal (json_of_notes l).
Proof.
  intros l st.
  assert (Hv : app_value (json_of_notes l)) by (left; by exists l).
  assert (H : fst (setItem STORAGE_KEY (JSON_stringify (json_of_notes l)) st) = Normal ())
    by (vm_compute; reflexivity).
  split_and!; [exact Hv | exact H |].
  exact (proj2 (load_after_save_app_value STORAGE_KEY _ (JArr []) st Hv H)).
Defined.

(** X21: saving under one key changes nothing of what [load] returns for
    another key: the notes and the theme are kept apart. *)
Theorem save_keeps_other_keys (key other : list N) (v d : json) (st : Storage) :
  other ≠ key →
  fst (load other d (snd (save key v st))) = fst (load other d st).
Proof.
  intros Hne. rewrite save_storage.
  destruct (setItem_cases key (JSON_stringify v) st) as [Hst|(Ha & Hst & _)];
    rewrite Hst; [done|].
  rewrite !load_unfold. cbn [available items].
  rewrite Ha. rewrite lookup_insert_ne by (by intros ->).
  destruct (items st !! other) as [[|c text]|]; [done| |done].
  by destruct (JSON_parse (c :: text)).
Qed.

Lemma save_keeps_other_keys_witness :
  let st := mkStorage true 1000 {[ STORAGE_THEME := JSON_stringify dark ]} in
  STORAGE_THEME ≠ STORAGE_KEY ∧
  fst (load STORAGE_THEME light (snd (save STORAGE_KEY (JArr []) st))) = Normal dark.
Proof.
  intros st. assert (H : STORAGE_THEME ≠ STORAGE_KEY) by discriminate.
  split; [exact H|].
  rewrite (save_keeps_other_keys STORAGE_KEY STORAGE_THEME (JArr []) light st H).
  vm_compute. reflexivity.
Defined.

(** X22: running the saving effect a second time with the same value leaves
    the storage as the first run left it. *)
Theorem save_twice (key : list N) (v : json) (st : Storage) :
  snd (save key v (snd (save key v st))) = snd (save key v st).
Proof.
  rewrite !save_storage.
  destruct (setItem_cases key (JSON_stringify v) st) as [Hst|(Ha & Hst & Hfits)].
  - by rewrite !Hst.
  - rewrite Hst. unfold setItem. cbn [available quota items].
    rewrite insert_insert_eq. by rewrite decide_True.
Qed.

(** ** More on the theme *)

(** X23: whatever value the theme cell holds, be it none of the two themes,
    once toggled it comes back after every pair of further toggles. *)
Theorem toggleTheme_pairs (t : json) (k : nat) :
  Nat.iter k (λ x, toggleTheme (toggleTheme x)) (toggleTheme t) = toggleTheme t.
Proof.
  induction k as [|k IH]; [done|]. rewrite Nat.iter_succ, IH.
  unfold toggleTheme. by destruct (is_string "light" t).
Qed.

(** * The search view on code units *)

Section wide_search.
Implicit Types (s q a b t : string) (l : list Note) (n : Note) (c d : ascii).

Lemma on_all_units (P : ascii → Prop) `{!∀ x, Decision (P x)} c :
  forallb (λ x, bool_decide (P x)) all_units = true → P c.
Proof.
  rewrite forallb_forall. intros Hall. eapply bool_decide_eq_true_1.
  apply Hall, list_elem_of_In, all_units_complete.
Qed.

Lemma is_white_wide c : Utf16.is_white (N_of_ascii c) = is_white c.
Proof.
  apply (on_all_units (λ x, Utf16.is_white (N_of_ascii x) = is_white x)).
  vm_compute. reflexivity.
Qed.

Lemma lower_unit_wide before c after :
  Utf16.lower_unit before (N_of_ascii c) after = N_of_ascii (lower_unit c).
Proof.
  unfold Utf16.lower_unit.
  destruct (on_all_units (λ x,
    (N_of_ascii x =? 931)%N = false ∧
    (if Utf16.is_upper (N_of_ascii x) then (N_of_ascii x + 32)%N else N_of_ascii x)
    = N_of_ascii (lower_unit x)) c) as [-> H]; [|done].
  vm_compute. reflexivity.
Qed.

Lemma in_tables_units s : forallb Utf16.in_tables (units s) = true.
Proof.
  induction s as [|c s IH]; [done|]. rewrite units_cons. cbn [forallb].
  rewrite IH, andb_true_r.
  apply (on_all_units (λ x, Utf16.in_tables (N_of_ascii x) = true)).
  vm_compute. reflexivity.
Qed.

Lemma lower_from_units before s :
  Utf16.lower_from before (units s) = units (toLowerCase s).
Proof.
  revert before. induction s as [|c s IH]; intros before; [done|].
  cbn [toLowerCase]. rewrite !units_cons. cbn [Utf16.lower_from].
  by rewrite lower_unit_wide, IH.
Qed.

(** On Latin-1 texts the functions of the language are the unit by unit
    ones. *)
Lemma toLowerCase_wide s :
  Utf16.toLowerCase (units s) = Some (units (toLowerCase s)).
Proof.
  unfold Utf16.toLowerCase. by rewrite in_tables_units, lower_from_units.
Qed.

Lemma trimStart_wide s : Utf16.trimStart (units s) = units (trimStart s).
Proof.
  induction s as [|c s IH]; [done|].
  rewrite units_cons. cbn [Utf16.trimStart trimStart].
  rewrite is_white_wide. by destruct (is_white c).
Qed.

Lemma trimEnd_wide s : Utf16.trimEnd (units s) = units (trimEnd s).
Proof.
  induction s as [|c s IH]; [done|].
  rewrite units_cons. cbn [Utf16.trimEnd trimEnd].
  rewrite IH, is_white_wide.
  destruct (trimEnd s) as [|d r]; [by destruct (is_white c) | done].
Qed.

Lemma trim_wide s : Utf16.trim (units s) = units (trim s).
Proof. unfold Utf16.trim, trim. by rewrite trimStart_wide, trimEnd_wide. Qed.

Lemma startsWith_wide s q : Utf16.startsWith (units s) (units q) = startsWith s q.
Proof.
  revert s. induction q as [|a q IH]; intros [|b s]; try done.
  rewrite !units_cons. cbn [Utf16.startsWith startsWith]. rewrite IH.
  f_equal. apply bool_decide_ext. split; [|by intros ->].
  intros H. by rewrite <- (ascii_N_embedding a), H, ascii_N_embedding.
Qed.

Lemma includes_wide s q : Utf16.includes (units s) (units q) = includes s q.
Proof.
  induction s as [|c s IH].
  - by destruct q.
  - rewrite units_cons. cbn [Utf16.includes includes]. rewrite IH.
    change (N_of_ascii c :: units s) with (units (String c s)).
    by rewrite startsWith_wide.
Qed.

Lemma or_empty_wide s : Utf16.or_empty (units s) = units (or_empty s).
Proof. by destruct s. Qed.

Lemma matches_wide q n :
  Utf16.matches (units q) (wide n) = Some (matches q n).
Proof.
  unfold Utf16.matches, matches, wide. cbn [Utf16.title Utf16.content].
  rewrite !or_empty_wide, !toLowerCase_wide. cbn.
  rewrite !includes_wide.
  by destruct (includes (toLowerCase (or_empty (title n))) q).
Qed.

Lemma filter_by_wide q l :
  Utf16.filter_by (Utf16.matches (units q)) (wide <$> l)
  = Some (wide <$> filter (λ n, matches q n) l).
Proof.
  induction l as [|n l IH]; [done|].
  rewrite fmap_cons, filter_cons. cbn [Utf16.filter_by].
  rewrite matches_wide, IH. destruct (matches q n) eqn:Hm.
  - reflexivity.
  - reflexivity.
Qed.

(** The search on code units, given notes and a query over Latin-1, is the
    search over Latin-1. *)
Lemma filtered_wide l query :
  Utf16.filtered (wide <$> l) (units query) = Some (wide <$> filtered l query).
Proof.
  unfold Utf16.filtered, filtered.
  rewrite trim_wide, toLowerCase_wide. cbn.
  destruct (toLowerCase (trim query)) as [|c q] eqn:Hq; [done|].
  rewrite units_cons, <- units_cons. cbn [truthy]. apply filter_by_wide.
Qed.

Lemma blank_white c : blank c = is_white c.
Proof.
  apply (on_all_units (λ x, blank x = is_white x)).
  vm_compute. reflexivity.
Qed.

Lemma all_blank_white s : all_blank s = all_white s.
Proof. induction s as [|c s IH]; [done|]. cbn. by rewrite blank_white, IH. Qed.

Lemma starts_blank_white s : starts_blank s = starts_white s.
Proof. destruct s; [done|]. apply blank_white. Qed.

Lemma ends_blank_white s : ends_blank s = ends_white s.
Proof.
  induction s as [|c s IH]; [done|]. cbn. rewrite blank_white.
  by destruct s.
Qed.

Lemma trimEnd_fixed s : ends_white s = false → trimEnd s = s.
Proof.
  induction s as [|c s IH]; [done|]. cbn [ends_white trimEnd].
  destruct s as [|d r].
  - cbn. by intros ->.
  - intros H. rewrite IH by done. done.
Qed.

Lemma trimStart_fixed s : starts_white s = false → trimStart s = s.
Proof. destruct s as [|c s]; [done|]. cbn. by intros ->. Qed.

(** What [trim] returns is the one text [stripped] names. *)
Lemma stripped_trim query t : stripped query t ↔ t = trim query.
Proof.
  split.
  - intros (a & b & -> & Ha & Hb & Hs & He).
    rewrite all_blank_white in Ha, Hb.
    rewrite starts_blank_white in Hs. rewrite ends_blank_white in He.
    rewrite trim_white by done. unfold trim.
    by rewrite trimStart_fixed, trimEnd_fixed.
  - intros ->. destruct (trim_spec query) as (a & b & H & Ha & Hb & Hs & He).
    exists a, b. by rewrite !all_blank_white, starts_blank_white, ends_blank_white.
Qed.

(** The table holds the pairs [toLowerCase] maps onto each other, and no
    other. *)
Lemma is_pair_case c d : is_pair c d = case_pair c d.
Proof.
  unfold is_pair, case_pair. apply eq_true_iff_eq.
  rewrite bool_decide_eq_true, andb_true_iff, bool_decide_eq_true. split.
  - assert (Hall : Forall (λ p, is_upper (ascii_of_N (fst p)) = true ∧
                               snd p = (fst p + 32)%N) letter_pairs)
      by by_compute.
    rewrite Forall_forall in Hall. intros [Hc Hd]%Hall.
    cbn [fst snd] in Hc, Hd. by rewrite ascii_N_embedding in Hc.
  - intros [Hc ->]. revert Hc.
    apply (on_all_units (λ x, is_upper x = true →
             (N_of_ascii x, (N_of_ascii x + 32)%N) ∈ letter_pairs)).
    vm_compute. reflexivity.
Qed.

Lemma same_letter_unit c d : same_letter c d = same_unit_ignoring_case c d.
Proof. unfold same_letter, same_unit_ignoring_case. by rewrite !is_pair_case. Qed.

Lemma same_letters_texts a b : same_letters a b = same_ignoring_case a b.
Proof.
  revert b. induction a as [|c a IH]; intros [|d b]; try done.
  cbn. by rewrite same_letter_unit, IH.
Qed.

Lemma occurs_contains s q : occurs_ignoring_case s q ↔ contains_ignoring_case s q.
Proof.
  unfold occurs_ignoring_case, contains_ignoring_case.
  by setoid_rewrite same_letters_texts.
Qed.


End wide_search.

(** The lower-case forms around a sigma. *)
Example toLowerCase_sigma :
  Utf16.toLowerCase [65; 931]%N = Some [97; 962]%N ∧
  Utf16.toLowerCase [931]%N = Some [963]%N ∧
  Utf16.toLowerCase [65; 931; 66]%N = Some [97; 963; 98]%N ∧
  Utf16.toLowerCase [65; 32; 931]%N = Some [97; 32; 963]%N ∧
  Utf16.toLowerCase [913; 931]%N = None.
Proof. by vm_compute. Qed.




(** The table of letters: 56 pairs, the last capital thorn with small
    thorn; the signs U+00D7 and U+00F7 are no pair. *)
Example letter_pairs_table :
  (length letter_pairs = 56)%nat ∧ last letter_pairs = Some (222, 254)%N ∧
  (65, 97)%N ∈ letter_pairs ∧ (214, 246)%N ∈ letter_pairs ∧
  ((215, 247)%N ∉ letter_pairs) ∧ ((223, 255)%N ∉ letter_pairs).
Proof. repeat split; by_compute. Qed.

(** Beyond Latin-1 the case of the query matters: for a note titled with a
    small a and a small sigma, the query in small letters lists it and the
    same query in capitals, lower-cased to a final sigma, does not. *)
Example filtered_case_beyond_latin1 :
  let n := Utf16.mkNote (units "k5") [97; 963]%N [] 5 5 in
  Utf16.filtered [n] [97; 963]%N = Some [n] ∧
  Utf16.filtered [n] [65; 931]%N = Some [].
Proof. by vm_compute. Qed.

(** Beyond Latin-1 a longer query can list more: the title A, capital sigma,
    B is not listed for its first two letters, which lower-case to a final
    sigma, and is listed for all three. *)
Example filtered_longer_query_beyond_latin1 :
  let n := Utf16.mkNote (units "k5") [65; 931; 66]%N [] 5 5 in
  Utf16.filtered [n] [65; 931]%N = Some [] ∧
  Utf16.filtered [n] [65; 931; 66]%N = Some [n].
Proof. by vm_compute. Qed.

(** X3 (notes and queries over Latin-1): the list shown depends on the query
    only up to case and to white space around it. *)
Theorem filtered_up_to_case_and_blanks_latin1 (l : list Note) (q1 q2 a b : string) :
  same_letters q1 q2 = true → all_blank a = true → all_blank b = true →
  Utf16.filtered (wide <$> l) (units (a +:+ q1 +:+ b))
  = Utf16.filtered (wide <$> l) (units q2) ∧
  filtered l (a +:+ q1 +:+ b) = filtered l q2.
Proof.
  rewrite same_letters_texts, !all_blank_white.
  intros Hq%same_ignoring_case_lower Ha Hb.
  assert (H : filtered l (a +:+ q1 +:+ b) = filtered l q2).
  { unfold filtered. rewrite trim_white by done.
    by rewrite <- !trim_toLowerCase, Hq. }
  by rewrite !filtered_wide, H.
Qed.

Lemma filtered_up_to_case_and_blanks_latin1_witness :
  let l := [mkNote "a" "Milk" "" 1 1; mkNote "b" "Bread" "" 2 2] in
  filtered l "  MiLK " = filtered l "milk" ∧
  Utf16.filtered (wide <$> l) (units "  MiLK ")
  = Utf16.filtered (wide <$> l) (units "milk") ∧
  filtered l "milk" = [mkNote "a" "Milk" "" 1 1].
Proof.
  intros l.
  pose proof (filtered_up_to_case_and_blanks_latin1 l "MiLK" "milk" "  " " "
                eq_refl eq_refl eq_refl) as [Hwide Hlatin].
  split_and!; [exact Hlatin | exact Hwide | reflexivity].
Defined.

(** X4 (notes and queries over Latin-1): a query that holds another one, case
    ignored, lists no note the other does not list: typing more never
    brings a note back. *)
Theorem filtered_narrows_latin1 (l : list Note) (q q' t t' : string) :
  stripped q t → stripped q' t' → occurs_ignoring_case t' t →
  Utf16.filtered (wide <$> l) (units q) = Some (wide <$> filtered l q) ∧
  Utf16.filtered (wide <$> l) (units q') = Some (wide <$> filtered l q') ∧
  filtered l q' `sublist_of` filtered l q.
Proof.
  intros ->%stripped_trim ->%stripped_trim Hqq'%occurs_contains.
  split_and!; [apply filtered_wide..|].
  destruct (decide (trim q = EmptyString)) as [Hq|Hq].
  { rewrite (filtered_empty l q) by done. apply filtered_is_sublist. }
  assert (Hq' : trim q' ≠ EmptyString).
  { intros Hq'. rewrite Hq' in Hqq'.
    destruct Hqq' as ([|] & [|] & [|] & H & Hsame); try discriminate.
    by destruct (trim q). }
  rewrite !filtered_truthy by done. apply filter_sublist_mono.
  intros n. rewrite !Is_true_true, !matches_hit.
  intros [H|H]; [left | right]; by eapply contains_ignoring_case_trans.
Qed.

Lemma filtered_narrows_latin1_witness :
  let l := [mkNote "a" "Milk" "" 1 1; mkNote "b" "Mill" "" 2 2] in
  stripped " mil" "mil" ∧ stripped "MILK " "MILK" ∧
  occurs_ignoring_case "MILK" "mil" ∧
  filtered l "MILK " `sublist_of` filtered l " mil" ∧
  filtered l "MILK " = [mkNote "a" "Milk" "" 1 1] ∧
  filtered l " mil" = l.
Proof.
  intros l.
  assert (H1 : stripped " mil" "mil") by (by exists " ", "").
  assert (H2 : stripped "MILK " "MILK") by (by exists "", " ").
  assert (H : occurs_ignoring_case "MILK" "mil") by (by exists "", "MIL", "K").
  split_and!; [exact H1 | exact H2 | exact H | | reflexivity | reflexivity].
  exact (proj2 (proj2 (filtered_narrows_latin1 l " mil" "MILK " "mil" "MILK" H1 H2 H))).
Defined.
